(** * PyPrep chess: the board, the move rules and the game, verified

    A shallow embedding of [pyprep_chess/board.py], [pyprep_chess/game.py] and
    the validation of [pyprep_chess/data_sources/json_file.py].

    - Python [int] is [Z]; a [Square] is a pair of integers.
    - [Board._grid], a [dict] from squares to pieces, is a [gmap].
    - Every failure of the package is a [ValueError]; the constructors of
      [Error] name the distinct messages.
    - A method that mutates its object and may raise returns the object as it
      is left together with the outcome, so what a caller sees after catching
      the exception is part of the model.
    - The [while] loop of [_is_path_clear] runs on fuel: [None] stands for a
      loop that has not finished within the fuel it was given.
    - A [str] is a [string]; its characters are the code points below 256.
    - Iterating over a board yields its placements in the order of the dict;
      what depends on it takes the sequence of items as its argument. *)

From Stdlib Require Import ZArith String Ascii List Lia Bool DecimalString.
From stdpp Require Import gmap.

Local Open Scope Z_scope.

(** ** board.py: constants and value types *)

Definition FILES : string := "abcdefgh"%string.
Definition BOARD_SIZE : Z := 8.

Inductive Color : Set := WHITE | BLACK.

Definition opponent (self : Color) : Color :=
  match self with WHITE => BLACK | BLACK => WHITE end.

Inductive PieceType : Set := KING | QUEEN | ROOK | BISHOP | KNIGHT | PAWN.

Record Piece : Set := mkPiece { color : Color; kind : PieceType }.

#[global] Instance Color_eq_dec : EqDecision Color.
Proof. solve_decision. Defined.

#[global] Instance PieceType_eq_dec : EqDecision PieceType.
Proof. solve_decision. Defined.

#[global] Instance Piece_eq_dec : EqDecision Piece.
Proof. solve_decision. Defined.

Abbreviation Square := (Z * Z)%type.
Abbreviation Board := (gmap Square Piece).

(** The messages of the [ValueError]s raised by the package. *)
Inductive Error : Set :=
| NoPieceAtSquare       (* "No piece at square ..."          board.py *)
| IllegalMove           (* "Illegal move for ..."            board.py *)
| OwnPieceCapture       (* "Cannot capture own piece"        board.py *)
| InvalidPromotion      (* "Cannot promote to pawn or king"  board.py *)
| InvalidNotation       (* "Invalid square name: ..."        board.py *)
| OutOfBounds           (* "Square out of bounds"            board.py *)
| NoPieceOnSquare       (* "No piece on ..."                 game.py *)
| WrongTurn             (* "It is ... to move"               game.py *)
| UnsupportedNotation   (* "Unsupported notation: ..."       game.py *)
| UnsupportedPromotion. (* "Unsupported promotion: ..."      game.py *)

(** Outcome of a call: a returned value or a raised error. *)
Inductive res (A : Type) : Type :=
| Ok (a : A)
| Err (e : Error).
Arguments Ok {A} a.
Arguments Err {A} e.

(** ** board.py: helper functions *)

Definition in_bounds (square : Square) : bool :=
  let '(file_index, rank_index) := square in
  (0 <=? file_index) && (file_index <? BOARD_SIZE)
  && (0 <=? rank_index) && (rank_index <? BOARD_SIZE).

(** [c in s] for a one-character [c]. *)
Fixpoint char_in (c : ascii) (s : string) : bool :=
  match s with
  | EmptyString => false
  | String d s' => if Ascii.eqb c d then true else char_in c s'
  end.

(** [s.index(c)] for a character that occurs in [s]. *)
Fixpoint index_of (c : ascii) (s : string) : Z :=
  match s with
  | EmptyString => 0
  | String d s' => if Ascii.eqb c d then 0 else 1 + index_of c s'
  end.

(** [int(c)] for a decimal digit [c]. *)
Definition int_of_digit (c : ascii) : Z := Z.of_nat (nat_of_ascii c) - 48.

(** [str(n)], the decimal text an f-string substitutes for an [int]. *)
Definition str_of_int (n : Z) : string := NilZero.string_of_int (Z.to_int n).

Definition parse_square (name : string) : res Square :=
  match name with
  | String c0 (String c1 EmptyString) =>
      if negb (char_in c0 FILES) || negb (char_in c1 "12345678"%string)
      then Err InvalidNotation
      else
        let file_index := index_of c0 FILES in
        let rank_index := int_of_digit c1 - 1 in
        Ok (file_index, rank_index)
  | _ => Err InvalidNotation          (* len(name) != 2 *)
  end.

Definition square_name (square : Square) : res string :=
  let '(file_index, rank_index) := square in
  if negb (in_bounds square) then Err OutOfBounds
  else
    match String.get (Z.to_nat file_index) FILES with
    | Some c => Ok (String c (str_of_int (rank_index + 1)))
    | None => Err OutOfBounds         (* not reached: the index is in range *)
    end.

(** ** board.py: class Board *)

Definition get_piece (self : Board) (square : Square) : option Piece :=
  self !! square.

Definition set_piece (self : Board) (square : Square) (piece : option Piece) : Board :=
  match piece with
  | None => delete square self
  | Some p => <[square := p]> self
  end.

Definition back_rank : list PieceType :=
  [ROOK; KNIGHT; BISHOP; QUEEN; KING; BISHOP; KNIGHT; ROOK].

(** [enumerate(l)], counting from [i]. *)
Fixpoint enumerate_from {A : Type} (i : Z) (l : list A) : list (Z * A) :=
  match l with
  | [] => []
  | x :: l' => (i, x) :: enumerate_from (i + 1) l'
  end.

(** [self._grid.clear()], then the four assignments of each round of the
    loop over [enumerate(back_rank)]. *)
Definition reset (self : Board) : Board :=
  fold_left
    (fun (grid : Board) '(file_index, kind) =>
       <[(file_index, 7) := mkPiece BLACK kind]>
         (<[(file_index, 6) := mkPiece BLACK PAWN]>
            (<[(file_index, 1) := mkPiece WHITE PAWN]>
               (<[(file_index, 0) := mkPiece WHITE kind]> grid))))
    (enumerate_from 0 back_rank)
    (∅ : Board).

Definition from_initial_position : Board := reset ∅.

(** [(d > 0) - (d < 0)] *)
Definition unit_step (d : Z) : Z := Z.b2z (0 <? d) - Z.b2z (d <? 0).

(** The loop of [_is_path_clear]; each test of [current != end] costs one
    unit of fuel. *)
Fixpoint path_loop (fuel : nat) (self : Board) (step_file step_rank : Z)
    (end_ current : Square) : option bool :=
  match fuel with
  | O => None
  | S fuel' =>
      if decide (current = end_) then Some true
      else
        match get_piece self current with
        | Some _ => Some false
        | None =>
            path_loop fuel' self step_file step_rank end_
              (current.1 + step_file, current.2 + step_rank)
        end
  end.

Definition _is_path_clear (fuel : nat) (self : Board) (start end_ : Square) : option bool :=
  let file_delta := end_.1 - start.1 in
  let rank_delta := end_.2 - start.2 in
  let step_file := unit_step file_delta in
  let step_rank := unit_step rank_delta in
  let current := (start.1 + step_file, start.2 + step_rank) in
  path_loop fuel self step_file step_rank end_ current.

(** [target is not None and target.color is c] *)
Definition holds_color (target : option Piece) (c : Color) : bool :=
  match target with
  | Some t => bool_decide (color t = c)
  | None => false
  end.

Definition is_none {A : Type} (o : option A) : bool :=
  match o with None => true | Some _ => false end.

Definition is_legal_move (fuel : nat) (self : Board) (piece : Piece)
    (start end_ : Square) : option bool :=
  if decide (start = end_) then Some false
  else if negb (in_bounds end_) then Some false
  else
    let target := get_piece self end_ in
    if holds_color target (color piece) then Some false
    else
      let file_delta := end_.1 - start.1 in
      let rank_delta := end_.2 - start.2 in
      match kind piece with
      | PAWN =>
          let direction := match color piece with WHITE => 1 | BLACK => -1 end in
          let start_rank := match color piece with WHITE => 1 | BLACK => 6 end in
          if file_delta =? 0 then
            if rank_delta =? direction then Some (is_none target)
            else if (rank_delta =? 2 * direction) && (start.2 =? start_rank) then
              let intermediate := (start.1, start.2 + direction) in
              Some (is_none target && is_none (get_piece self intermediate))
            else Some false
          else if (Z.abs file_delta =? 1) && (rank_delta =? direction) then
            Some (holds_color target (opponent (color piece)))
          else Some false
      | KNIGHT =>
          Some (bool_decide ((Z.abs file_delta, Z.abs rank_delta) ∈ [(1, 2); (2, 1)]))
      | KING =>
          Some (Z.max (Z.abs file_delta) (Z.abs rank_delta) =? 1)
      | BISHOP =>
          if Z.abs file_delta =? Z.abs rank_delta
          then _is_path_clear fuel self start end_
          else Some false
      | ROOK =>
          if (file_delta =? 0) || (rank_delta =? 0)
          then _is_path_clear fuel self start end_
          else Some false
      | QUEEN =>
          if (Z.abs file_delta =? Z.abs rank_delta) || (file_delta =? 0) || (rank_delta =? 0)
          then _is_path_clear fuel self start end_
          else Some false
      end.

(** The error an f-string naming [squares] raises while it is built, if any:
    [square_name] is called on each in turn. *)
Fixpoint naming_error (squares : list Square) : option Error :=
  match squares with
  | [] => None
  | sq :: rest =>
      match square_name sq with
      | Err e => Some e
      | Ok _ => naming_error rest
      end
  end.

(** [raise ValueError(f"... {square_name(s1)} ... {square_name(s2)}")] *)
Definition raise_naming {A : Type} (squares : list Square) (e : Error) : res A :=
  match naming_error squares with
  | Some e' => Err e'
  | None => Err e
  end.

Definition move_piece (fuel : nat) (self : Board) (start end_ : Square)
    (promotion : option PieceType) : option (Board * res unit) :=
  match get_piece self start with
  | None => Some (self, raise_naming [start] NoPieceAtSquare)
  | Some piece =>
      match is_legal_move fuel self piece start end_ with
      | None => None
      | Some false => Some (self, raise_naming [start; end_] IllegalMove)
      | Some true =>
          let target := get_piece self end_ in
          if holds_color target (color piece) then Some (self, Err OwnPieceCapture)
          else
            (* Execute move *)
            let self := set_piece self end_ (Some piece) in
            let self := set_piece self start None in
            if bool_decide (kind piece = PAWN)
               && ((end_.2 =? 0) || (end_.2 =? BOARD_SIZE - 1))
            then
              let promoted := default QUEEN promotion in
              if bool_decide (promoted = PAWN) || bool_decide (promoted = KING)
              then Some (self, Err InvalidPromotion)
              else Some (set_piece self end_ (Some (mkPiece (color piece) promoted)), Ok tt)
            else Some (self, Ok tt)
      end
  end.

(** ** game.py *)

Record Move : Set := mkMove {
  start : string;
  end_ : string;
  promotion : option PieceType
}.

Record ChessGame : Type := mkChessGame {
  board : Board;
  turn : Color;
  history : list Move
}.

(** [ChessGame()]: the field defaults of the dataclass. *)
Definition new_game : ChessGame :=
  {| board := from_initial_position; turn := WHITE; history := [] |}.

Definition apply_move (fuel : nat) (self : ChessGame) (move : Move)
    : option (ChessGame * res unit) :=
  match parse_square (start move) with
  | Err e => Some (self, Err e)
  | Ok start =>
      match parse_square (end_ move) with
      | Err e => Some (self, Err e)
      | Ok end_ =>
          match get_piece (board self) start with
          | None => Some (self, Err NoPieceOnSquare)
          | Some piece =>
              if negb (bool_decide (color piece = turn self))
              then Some (self, Err WrongTurn)
              else
                match move_piece fuel (board self) start end_ (promotion move) with
                | None => None
                | Some (board', Err e) =>
                    Some ({| board := board'; turn := turn self;
                             history := history self |}, Err e)
                | Some (board', Ok _) =>
                    Some ({| board := board';
                             turn := opponent (turn self);
                             history := history self ++ [move] |}, Ok tt)
                end
          end
      end
  end.

Definition code (c : ascii) : N := N_of_ascii c.

(** [c.isspace()], which decides what [str.strip] removes. *)
Definition is_space (c : ascii) : bool :=
  let n := code c in
  ((9 <=? n) && (n <=? 13) || (28 <=? n) && (n <=? 32) || (n =? 133) || (n =? 160))%N.

(** [c.lower()] *)
Definition lower_char (c : ascii) : ascii :=
  let n := code c in
  if ((65 <=? n) && (n <=? 90) || (192 <=? n) && (n <=? 222) && negb (n =? 215))%N
  then ascii_of_N (n + 32)
  else c.

Fixpoint lstrip (s : string) : string :=
  match s with
  | EmptyString => EmptyString
  | String c s' => if is_space c then lstrip s' else s
  end.

Fixpoint rstrip (s : string) : string :=
  match s with
  | EmptyString => EmptyString
  | String c s' =>
      match rstrip s' with
      | EmptyString => if is_space c then EmptyString else String c EmptyString
      | t => String c t
      end
  end.

Definition strip (s : string) : string := rstrip (lstrip s).

Fixpoint lower (s : string) : string :=
  match s with
  | EmptyString => EmptyString
  | String c s' => String (lower_char c) (lower s')
  end.

Definition _promotion_from_char (char : ascii) : res PieceType :=
  if Ascii.eqb char "q" then Ok QUEEN
  else if Ascii.eqb char "r" then Ok ROOK
  else if Ascii.eqb char "b" then Ok BISHOP
  else if Ascii.eqb char "n" then Ok KNIGHT
  else Err UnsupportedPromotion.

Definition apply_sanless (fuel : nat) (self : ChessGame) (notation : string)
    : option (ChessGame * res unit) :=
  let notation := lower (strip notation) in
  let len := String.length notation in
  if negb ((len =? 4)%nat || (len =? 5)%nat)
  then Some (self, Err UnsupportedNotation)
  else
    let parsed : res (option PieceType * string) :=
      if (len =? 5)%nat then
        match String.get 4 notation with          (* notation[-1] *)
        | Some promotion_char =>
            match _promotion_from_char promotion_char with
            | Ok p => Ok (Some p, substring 0 4 notation)
            | Err e => Err e
            end
        | None => Err UnsupportedNotation         (* not reached: len is 5 *)
        end
      else Ok (None, notation) in
    match parsed with
    | Err e => Some (self, Err e)
    | Ok (promotion, notation) =>
        let move := {| start := substring 0 2 notation;
                       end_ := substring 2 (String.length notation - 2) notation;
                       promotion := promotion |} in
        apply_move fuel self move
    end.

Fixpoint load_moves (fuel : nat) (self : ChessGame) (moves : list string)
    : option (ChessGame * res unit) :=
  match moves with
  | [] => Some (self, Ok tt)
  | notation :: rest =>
      match apply_sanless fuel self notation with
      | None => None
      | Some (self', Err e) => Some (self', Err e)
      | Some (self', Ok _) => load_moves fuel self' rest
      end
  end.

(** ** Vocabulary of the properties *)

Definition file_delta (start end_ : Square) : Z := end_.1 - start.1.
Definition rank_delta (start end_ : Square) : Z := end_.2 - start.2.

(** Number of king steps from [start] to [end_]. *)
Definition distance (start end_ : Square) : Z :=
  Z.max (Z.abs (file_delta start end_)) (Z.abs (rank_delta start end_)).

(** [start] and [end_] share a file, a rank or an exact diagonal. *)
Definition aligned (start end_ : Square) : Prop :=
  file_delta start end_ = 0 \/ rank_delta start end_ = 0
  \/ Z.abs (file_delta start end_) = Z.abs (rank_delta start end_).

(** The [k]-th square on the way from [start] towards [end_]. *)
Definition toward (start end_ : Square) (k : Z) : Square :=
  (start.1 + k * Z.sgn (file_delta start end_),
   start.2 + k * Z.sgn (rank_delta start end_)).

(** [s] lies on the line from [start] to [end_], both ends excluded. *)
Definition strictly_between (start end_ s : Square) : Prop :=
  exists k : Z, 0 < k < distance start end_ /\ s = toward start end_ k.

(** The squares the loop of [_is_path_clear] visits in [count] rounds. *)
Fixpoint path_squares (count : nat) (step_file step_rank : Z) (current : Square)
    : list Square :=
  match count with
  | O => []
  | S count' =>
      current :: path_squares count' step_file step_rank
                   (current.1 + step_file, current.2 + step_rank)
  end.

(** The squares [_is_path_clear] inspects on an aligned move. *)
Definition path (start end_ : Square) : list Square :=
  path_squares (Z.to_nat (distance start end_ - 1))
    (Z.sgn (file_delta start end_)) (Z.sgn (rank_delta start end_))
    (toward start end_ 1).

Definition all_empty (self : Board) (squares : list Square) : bool :=
  forallb (fun s => is_none (get_piece self s)) squares.

(** The shape of a move that suits a sliding piece of kind [k]. *)
Definition sliding_geometry (k : PieceType) (start end_ : Square) : Prop :=
  match k with
  | BISHOP => Z.abs (file_delta start end_) = Z.abs (rank_delta start end_)
  | ROOK => file_delta start end_ = 0 \/ rank_delta start end_ = 0
  | QUEEN => Z.abs (file_delta start end_) = Z.abs (rank_delta start end_)
             \/ file_delta start end_ = 0 \/ rank_delta start end_ = 0
  | _ => False
  end.

Definition pawn_direction (c : Color) : Z :=
  match c with WHITE => 1 | BLACK => -1 end.

Definition pawn_start_rank (c : Color) : Z :=
  match c with WHITE => 1 | BLACK => 6 end.

(** What stands on the destination after [piece] has moved there. *)
Definition landed (piece : Piece) (end_ : Square) (promotion : option PieceType) : Piece :=
  match kind piece with
  | PAWN =>
      if (end_.2 =? 0) || (end_.2 =? 7)
      then mkPiece (color piece) (default QUEEN promotion)
      else piece
  | _ => piece
  end.

(** ['a'..'h'] and ['1'..'8'] by character code. *)
Definition is_file_char (c : ascii) : Prop := (97 <= code c <= 104)%N.
Definition is_rank_char (c : ascii) : Prop := (49 <= code c <= 56)%N.

Definition is_square_text (n : string) : Prop :=
  exists c0 c1, n = String c0 (String c1 EmptyString)
                /\ is_file_char c0 /\ is_rank_char c1.

(** [applied fuel g ms g']: the calls [apply_move] on [ms], in order, all
    return and lead from [g] to [g']. *)
Inductive applied (fuel : nat) : ChessGame -> list Move -> ChessGame -> Prop :=
| applied_nil g : applied fuel g [] g
| applied_cons g m g' ms g'' :
    apply_move fuel g m = Some (g', Ok tt) ->
    applied fuel g' ms g'' ->
    applied fuel g (m :: ms) g''.

(** ** board.py: display *)

(** [PieceType.value], the one-letter notation of a kind. *)
Definition value (k : PieceType) : string :=
  match k with
  | KING => "K" | QUEEN => "Q" | ROOK => "R"
  | BISHOP => "B" | KNIGHT => "N" | PAWN => "P"
  end.

Definition symbol (self : Piece) : string :=
  let base := value (kind self) in
  match color self with WHITE => base | BLACK => lower base end.

(** [range(n)] *)
Definition range (n : Z) : list Z := seqZ 0 n.

(** [sep.join(parts)] *)
Fixpoint join (sep : string) (parts : list string) : string :=
  match parts with
  | [] => EmptyString
  | p :: rest =>
      match rest with
      | [] => p
      | _ => String.append p (String.append sep (join sep rest))
      end
  end.

(** The characters of a text, as [join] sees them when handed a [str]. *)
Definition chars (s : string) : list string :=
  map (fun c => String c EmptyString) (list_ascii_of_string s).

Definition newline : string := String (ascii_of_nat 10) EmptyString.

(** [piece.symbol() if piece else "."] *)
Definition cell_text (piece : option Piece) : string :=
  match piece with Some p => symbol p | None => "." end.

(** The body of [render], over the text shown for each square. *)
Definition render_with (cell : Square -> string) : string :=
  let rows :=
    map (fun rank =>
           let row := str_of_int (rank + 1)
                      :: map (fun file_index => cell (file_index, rank)) (range BOARD_SIZE) in
           join " " row)
        (rev (range BOARD_SIZE)) in
  let rows := rows ++ [String.append "  " (join " " (chars FILES))] in
  join newline rows.

Definition render (self : Board) : string :=
  render_with (fun square => cell_text (get_piece self square)).

(** ** game.py: the text of a move and the matrix view *)

(** [Move.__str__] *)
Definition Move_str (self : Move) : string :=
  match promotion self with
  | Some p => String.append (start self) (String.append (end_ self) (lower (value p)))
  | None => String.append (start self) (end_ self)
  end.

(** Outcome of code whose only failure is a list index out of range. *)
Inductive indexed (A : Type) : Type :=
| Got (a : A)
| IndexError.
Arguments Got {A} a.
Arguments IndexError {A}.

(** The position [l[i]] denotes in a list of [len] items: negative indices
    count from the end; [None] outside [-len, len). *)
Definition py_index (len : nat) (i : Z) : option nat :=
  if (0 <=? i) && (i <? Z.of_nat len) then Some (Z.to_nat i)
  else if (- Z.of_nat len <=? i) && (i <? 0) then Some (Z.to_nat (Z.of_nat len + i))
  else None.

(** The loop of [board_as_matrix] over the items of the board, in the order
    the dict yields them: [matrix[rank_index][file_index] = piece]. *)
Fixpoint fill_matrix (items : list (Square * Piece))
    (matrix : list (list (option Piece))) : indexed (list (list (option Piece))) :=
  match items with
  | [] => Got matrix
  | ((file_index, rank_index), piece) :: rest =>
      match py_index (length matrix) rank_index with
      | None => IndexError
      | Some r =>
          match matrix !! r with
          | None => IndexError
          | Some row =>
              match py_index (length row) file_index with
              | None => IndexError
              | Some f => fill_matrix rest (<[r := <[f := Some piece]> row]> matrix)
              end
          end
      end
  end.

(** [board_as_matrix], given [items = list(self.board)]: the placements in
    the iteration order of the dict. *)
Definition board_as_matrix (items : list (Square * Piece))
    : indexed (list (list (option Piece))) :=
  fill_matrix items
    (replicate (Z.to_nat BOARD_SIZE) (replicate (Z.to_nat BOARD_SIZE) None)).

(** ** data_sources/json_file.py *)

(** What [json.load] returns. *)
#[local] Set Warnings "-register-all".
Inductive json : Type :=
| JNull
| JBool (b : bool)
| JInt (n : Z)
| JFloat (literal : string)
| JString (s : string)
| JList (l : list json)
| JDict (d : list (string * json)).

(** The messages of the [ValueError]s raised by [JsonFileMoveSource.load]. *)
Inductive LoadError : Set :=
| NotAList                      (* "Move file must contain a JSON list" *)
| EntryNotString (index : Z).   (* "Move at index {index} is not a string" *)

(** The loop of [load] over [enumerate(data)]. *)
Fixpoint load_entries (entries : list (Z * json)) (moves : list string)
    : LoadError + list string :=
  match entries with
  | [] => inr moves
  | (index, entry) :: rest =>
      match entry with
      | JString m => load_entries rest (moves ++ [m])
      | _ => inl (EntryNotString index)
      end
  end.

(** [JsonFileMoveSource.load], from the value read out of the file on. *)
Definition load (data : json) : LoadError + list string :=
  match data with
  | JList l => load_entries (enumerate_from 0 l) []
  | _ => inl NotAList
  end.

(** ** More vocabulary *)

(** Every piece stands on one of the 64 squares. *)
Definition on_board (b : Board) : Prop :=
  forall s p, get_piece b s = Some p -> in_bounds s = true.

(** The kinds a coordinate text can ask a pawn to become. *)
Definition promotable (p : option PieceType) : Prop :=
  p = None \/ p = Some QUEEN \/ p = Some ROOK \/ p = Some BISHOP \/ p = Some KNIGHT.

(** A move as [apply_sanless] records it. *)
Definition well_formed_move (m : Move) : Prop :=
  is_square_text (start m) /\ is_square_text (end_ m) /\ promotable (promotion m).

(** The standard starting position, square by square. *)
Definition start_piece (square : Square) : option Piece :=
  let '(f, r) := square in
  if (0 <=? f) && (f <? 8) then
    if r =? 0 then mkPiece WHITE <$> back_rank !! Z.to_nat f
    else if r =? 1 then Some (mkPiece WHITE PAWN)
    else if r =? 6 then Some (mkPiece BLACK PAWN)
    else if r =? 7 then mkPiece BLACK <$> back_rank !! Z.to_nat f
    else None
  else None.

(** The same piece in the other colour. *)
Definition recolor (p : Piece) : Piece := mkPiece (opponent (color p)) (kind p).

(** [matrix[r][f]], when both indices are in range. *)
Definition matrix_cell (matrix : list (list (option Piece))) (r f : nat)
    : option (option Piece) :=
  match matrix !! r with Some row => row !! f | None => None end.

Definition is_8x8 (matrix : list (list (option Piece))) : Prop :=
  length matrix = 8%nat /\ Forall (fun row => length row = 8%nat) matrix.

(** The cell [board_as_matrix] writes for a square: row and column, each
    found as a Python index into eight items. *)
Definition cell_of (square : Square) : option (nat * nat) :=
  match py_index 8 square.2, py_index 8 square.1 with
  | Some r, Some f => Some (r, f)
  | _, _ => None
  end.

(** No pawn stands on the first or the last rank. *)
Definition no_edge_pawn (b : Board) : Prop :=
  forall s p, get_piece b s = Some p -> kind p = PAWN -> s.2 <> 0 /\ s.2 <> 7.

(** The index in [render]'s text of the character shown for a square. *)
Definition render_offset (square : Square) : nat :=
  Z.to_nat (18 * (7 - square.2) + 2 + 2 * square.1).

(** ** Running the model on the repository's tests *)

Definition sq (name : string) : Square :=
  match parse_square name with Ok s => s | Err _ => (-1, -1) end.

(** What a test observes of a call on a board: the outcome and the pieces on
    the squares it looks at. *)
Definition observe (squares : list Square) (r : option (Board * res unit))
    : option (res unit * list (option Piece)) :=
  (fun '(b, o) => (o, map (get_piece b) squares)) <$> r.

(** What a test observes of a call on a game. *)
Definition observe_game (squares : list Square) (r : option (ChessGame * res unit))
    : option (res unit * Color * nat * list (option Piece)) :=
  (fun '(g, o) => (o, turn g, length (history g), map (get_piece (board g)) squares)) <$> r.

Example test_initial_position_contains_kings :
  map (get_piece from_initial_position) [sq "e1"; sq "e8"]
  = [Some (mkPiece WHITE KING); Some (mkPiece BLACK KING)].
Proof. vm_compute. reflexivity. Qed.

Example test_pawn_forward_move :
  observe [sq "e4"; sq "e2"]
    (move_piece 8 from_initial_position (sq "e2") (sq "e4") None)
  = Some (Ok tt, [Some (mkPiece WHITE PAWN); None]).
Proof. vm_compute. reflexivity. Qed.

Example test_knight_can_jump :
  observe [sq "f3"]
    (move_piece 0 from_initial_position (sq "g1") (sq "f3") None)
  = Some (Ok tt, [Some (mkPiece WHITE KNIGHT)]).
Proof. vm_compute. reflexivity. Qed.

Example test_blocked_path_prevents_rook_move :
  observe [sq "a1"; sq "a2"; sq "a3"]
    (move_piece 8 from_initial_position (sq "a1") (sq "a3") None)
  = Some (Err IllegalMove,
          [Some (mkPiece WHITE ROOK); Some (mkPiece WHITE PAWN); None]).
Proof. vm_compute. reflexivity. Qed.

Example test_apply_sanless_sequence :
  observe_game [(4, 3)]
    (load_moves 8 new_game ["e2e4"; "e7e5"; "g1f3"]%string)
  = Some (Ok tt, BLACK, 3%nat, [Some (mkPiece WHITE PAWN)]).
Proof. vm_compute. reflexivity. Qed.

Example test_turn_enforced :
  observe_game [sq "e4"; sq "d2"; sq "d4"]
    (load_moves 8 new_game ["e2e4"; "d2d4"]%string)
  = Some (Err WrongTurn, BLACK, 1%nat,
          [Some (mkPiece WHITE PAWN); Some (mkPiece WHITE PAWN); None]).
Proof. vm_compute. reflexivity. Qed.

Example test_invalid_notation_rejected :
  observe_game [] (apply_sanless 8 new_game "invalid")
  = Some (Err UnsupportedNotation, WHITE, 0%nat, []).
Proof. vm_compute. reflexivity. Qed.

(** ** Coordinate model *)

Lemma char_in_FILES (c : ascii) :
  char_in c FILES = ((97 <=? code c) && (code c <=? 104))%N.
Proof. destruct c as [[] [] [] [] [] [] [] []]; vm_compute; reflexivity. Qed.

Lemma char_in_ranks (c : ascii) :
  char_in c "12345678" = ((49 <=? code c) && (code c <=? 56))%N.
Proof. destruct c as [[] [] [] [] [] [] [] []]; vm_compute; reflexivity. Qed.

Lemma in_bounds_iff (f r : Z) :
  in_bounds (f, r) = true <-> 0 <= f <= 7 /\ 0 <= r <= 7.
Proof. unfold in_bounds, BOARD_SIZE. lia. Qed.

Lemma square_name_parse (f r : Z) :
  0 <= f <= 7 -> 0 <= r <= 7 ->
  exists n, square_name (f, r) = Ok n /\ parse_square n = Ok (f, r).
Proof.
  intros Hf Hr.
  assert (Ef : f = 0 \/ f = 1 \/ f = 2 \/ f = 3 \/ f = 4 \/ f = 5 \/ f = 6 \/ f = 7) by lia.
  assert (Er : r = 0 \/ r = 1 \/ r = 2 \/ r = 3 \/ r = 4 \/ r = 5 \/ r = 6 \/ r = 7) by lia.
  destruct Ef as [-> | [-> | [-> | [-> | [-> | [-> | [-> | ->]]]]]]];
    destruct Er as [-> | [-> | [-> | [-> | [-> | [-> | [-> | ->]]]]]]];
    eexists; split; reflexivity.
Qed.

Lemma file_char_cases (c : ascii) :
  is_file_char c ->
  In c ["a"; "b"; "c"; "d"; "e"; "f"; "g"; "h"]%char.
Proof.
  unfold is_file_char.
  destruct c as [[] [] [] [] [] [] [] []]; vm_compute; intros [H1 H2];
    try (exfalso; (apply H1 || apply H2); reflexivity); tauto.
Qed.

Lemma rank_char_cases (c : ascii) :
  is_rank_char c ->
  In c ["1"; "2"; "3"; "4"; "5"; "6"; "7"; "8"]%char.
Proof.
  unfold is_rank_char.
  destruct c as [[] [] [] [] [] [] [] []]; vm_compute; intros [H1 H2];
    try (exfalso; (apply H1 || apply H2); reflexivity); tauto.
Qed.

Lemma parse_square_name (c0 c1 : ascii) :
  is_file_char c0 -> is_rank_char c1 ->
  exists s, parse_square (String c0 (String c1 EmptyString)) = Ok s
            /\ square_name s = Ok (String c0 (String c1 EmptyString)).
Proof.
  intros H0 H1. apply file_char_cases in H0. apply rank_char_cases in H1.
  simpl in H0, H1.
  repeat (destruct H0 as [<- | H0]); try contradiction;
    repeat (destruct H1 as [<- | H1]); try contradiction;
    eexists; split; reflexivity.
Qed.

Lemma parse_square_rejects (n : string) :
  ~ is_square_text n -> parse_square n = Err InvalidNotation.
Proof.
  intros Hn. destruct n as [|c0 [|c1 [|c2 n]]]; try reflexivity.
  unfold parse_square. rewrite char_in_FILES, char_in_ranks.
  destruct (_ || _) eqn:E; [reflexivity|].
  exfalso. apply Hn. exists c0, c1. unfold is_file_char, is_rank_char.
  split; [reflexivity|].
  rewrite orb_false_iff, !negb_false_iff, !andb_true_iff, !N.leb_le in E. lia.
Qed.

Lemma square_name_rejects (f r : Z) :
  ~ (0 <= f <= 7 /\ 0 <= r <= 7) -> square_name (f, r) = Err OutOfBounds.
Proof.
  intros H. unfold square_name.
  destruct (in_bounds (f, r)) eqn:E; [|reflexivity].
  apply in_bounds_iff in E. contradiction.
Qed.

(** C7. [parse_square] and [square_name] are mutually inverse: a square with
    file and rank in 0..7 is named and its name parses back to it; a text of
    one character of a..h and one of 1..8 parses and the square found is
    named by that text; [parse_square] raises InvalidNotation on every other
    text and [square_name] raises OutOfBounds on every square with a file or
    a rank outside 0..7. *)
Theorem parse_square_square_name_inverse :
  (forall f r : Z, 0 <= f <= 7 -> 0 <= r <= 7 ->
     exists n, square_name (f, r) = Ok n /\ parse_square n = Ok (f, r))
  /\ (forall c0 c1 : ascii, is_file_char c0 -> is_rank_char c1 ->
        exists s, parse_square (String c0 (String c1 EmptyString)) = Ok s
                  /\ square_name s = Ok (String c0 (String c1 EmptyString)))
  /\ (forall n : string, ~ is_square_text n -> parse_square n = Err InvalidNotation)
  /\ (forall f r : Z, ~ (0 <= f <= 7 /\ 0 <= r <= 7) ->
        square_name (f, r) = Err OutOfBounds).
Proof.
  split; [exact square_name_parse|].
  split; [exact parse_square_name|].
  split; [exact parse_square_rejects | exact square_name_rejects].
Qed.

Lemma parse_square_square_name_inverse_witness :
  (exists n, square_name (4, 3) = Ok n /\ parse_square n = Ok (4, 3))
  /\ (exists s, parse_square "e4" = Ok s /\ square_name s = Ok "e4"%string)
  /\ parse_square "e9" = Err InvalidNotation
  /\ square_name (8, 0) = Err OutOfBounds.
Proof.
  destruct parse_square_square_name_inverse as (H1 & H2 & H3 & H4).
  split; [|split; [|split]].
  - apply H1; lia.
  - apply (H2 "e"%char "4"%char); vm_compute; split; discriminate.
  - apply H3. intros (c0 & c1 & Heq & _ & _ & Hle).
    injection Heq as <- <-. vm_compute in Hle. apply Hle. reflexivity.
  - apply H4. lia.
Defined.

(** ** The path-clearance loop *)

Lemma unit_step_sgn (d : Z) : unit_step d = Z.sgn d.
Proof. destruct d; reflexivity. Qed.

(** More fuel never changes a result already reached. *)
Lemma path_loop_mono (fuel fuel' : nat) (b : Board) (sf sr : Z) (e cur : Square) (r : bool) :
  (fuel <= fuel')%nat ->
  path_loop fuel b sf sr e cur = Some r ->
  path_loop fuel' b sf sr e cur = Some r.
Proof.
  revert fuel' cur. induction fuel as [|fuel IH]; intros fuel' cur Hle H.
  - discriminate.
  - destruct fuel' as [|fuel']; [lia|]. simpl in *.
    destruct (decide (cur = e)); [exact H|].
    destruct (get_piece b cur); [exact H|].
    apply IH; [lia | exact H].
Qed.

(** [count] rounds away from the destination the loop needs [count + 1]
    tests, and answers whether the squares it visited are all empty. *)
Lemma path_loop_run (count : nat) :
  forall (fuel : nat) (b : Board) (sf sr : Z) (e cur : Square),
    ((0 < count)%nat -> sf <> 0 \/ sr <> 0) ->
    e = (cur.1 + Z.of_nat count * sf, cur.2 + Z.of_nat count * sr) ->
    (count < fuel)%nat ->
    path_loop fuel b sf sr e cur = Some (all_empty b (path_squares count sf sr cur)).
Proof.
  induction count as [|count IH]; intros fuel b sf sr e [cf cr] Hstep He Hfuel;
    (destruct fuel as [|fuel]; [lia|]); simpl in *.
  - subst e. destruct (decide _) as [_|Hne]; [reflexivity|].
    exfalso. apply Hne. f_equal; lia.
  - destruct (decide _) as [Heq|_].
    + exfalso. subst e. inversion Heq as [[H1 H2]].
      assert (sf = 0) by nia. assert (sr = 0) by nia.
      destruct Hstep as [?|?]; [lia| |]; contradiction.
    + unfold all_empty. simpl. destruct (get_piece b (cf, cr)); [reflexivity|].
      simpl. apply IH; [intros _; apply Hstep; lia | | lia].
      subst e. simpl. f_equal; lia.
Qed.

Lemma path_squares_spec (count : nat) :
  forall (sf sr : Z) (cur s : Square),
    In s (path_squares count sf sr cur) <->
    exists j : Z, 0 <= j < Z.of_nat count /\ s = (cur.1 + j * sf, cur.2 + j * sr).
Proof.
  induction count as [|count IH]; intros sf sr [cf cr] s; simpl.
  - split; [contradiction | intros (j & Hj & _); lia].
  - rewrite IH. simpl. split.
    + intros [<- | (j & Hj & ->)].
      * exists 0. split; [lia | f_equal; lia].
      * exists (j + 1). split; [lia | f_equal; lia].
    + intros (j & Hj & ->).
      destruct (decide (j = 0)) as [-> | Hj0].
      * left. f_equal; lia.
      * right. exists (j - 1). split; [lia | f_equal; lia].
Qed.

(** The squares of [path] are the squares strictly between the two ends. *)
Lemma path_strictly_between (start end_ s : Square) :
  In s (path start end_) <-> strictly_between start end_ s.
Proof.
  unfold path, strictly_between, toward. rewrite path_squares_spec. simpl. split.
  - intros (j & Hj & ->). exists (j + 1). split; [lia | f_equal; lia].
  - intros (k & Hk & ->). exists (k - 1). split; [lia | f_equal; lia].
Qed.

(** On aligned squares the loop ends within [distance] tests (one test when
    the two squares coincide). *)
Lemma _is_path_clear_aligned (fuel : nat) (b : Board) (start end_ : Square) :
  aligned start end_ ->
  (1 <= fuel)%nat -> (Z.to_nat (distance start end_) <= fuel)%nat ->
  _is_path_clear fuel b start end_ = Some (all_empty b (path start end_)).
Proof.
  destruct start as [sf sr], end_ as [ef er].
  unfold aligned, _is_path_clear, path, toward, distance, file_delta, rank_delta.
  simpl. intros Hal H1 Hfuel. rewrite !unit_step_sgn.
  replace (1 * Z.sgn (ef - sf)) with (Z.sgn (ef - sf)) by lia.
  replace (1 * Z.sgn (er - sr)) with (Z.sgn (er - sr)) by lia.
  apply path_loop_run; simpl.
  - lia.
  - f_equal; lia.
  - lia.
Qed.

(** ** The legality predicate *)

Lemma distance_pos (start end_ : Square) :
  start <> end_ -> 1 <= distance start end_.
Proof.
  destruct start as [sf sr], end_ as [ef er].
  unfold distance, file_delta, rank_delta. simpl. intros Hne.
  destruct (decide (ef = sf)) as [-> | ?]; [|lia].
  destruct (decide (er = sr)) as [-> | ?]; [|lia].
  contradiction.
Qed.

Lemma sliding_geometry_aligned (k : PieceType) (start end_ : Square) :
  sliding_geometry k start end_ -> aligned start end_.
Proof. unfold aligned. destruct k; simpl; tauto. Qed.

Lemma is_legal_move_mono (fuel fuel' : nat) (b : Board) (piece : Piece)
    (start end_ : Square) (r : bool) :
  (fuel <= fuel')%nat ->
  is_legal_move fuel b piece start end_ = Some r ->
  is_legal_move fuel' b piece start end_ = Some r.
Proof.
  intros Hle. unfold is_legal_move, _is_path_clear.
  destruct (decide (start = end_)); [trivial|].
  destruct (negb (in_bounds end_)); [trivial|].
  destruct (holds_color _ _); [trivial|].
  destruct (kind piece); trivial;
    match goal with |- (if ?c then _ else _) = _ -> _ => destruct c end;
    trivial; apply path_loop_mono; exact Hle.
Qed.

(** With [distance] units of fuel a sliding move of the right shape is
    decided, by the destination and the squares of the path. *)
Lemma is_legal_move_sliding (fuel : nat) (b : Board) (piece : Piece) (start end_ : Square) :
  sliding_geometry (kind piece) start end_ ->
  (Z.to_nat (distance start end_) <= fuel)%nat ->
  is_legal_move fuel b piece start end_
  = Some (bool_decide (start <> end_) && in_bounds end_
          && negb (holds_color (get_piece b end_) (color piece))
          && all_empty b (path start end_)).
Proof.
  intros Hgeo Hfuel. unfold is_legal_move.
  destruct (decide (start = end_)) as [Heq | Hne].
  { rewrite (bool_decide_eq_false_2 (start <> end_)) by tauto. reflexivity. }
  rewrite (bool_decide_eq_true_2 (start <> end_)) by exact Hne.
  destruct (in_bounds end_); [|reflexivity].
  destruct (holds_color _ _); [reflexivity|]. simpl.
  pose proof (distance_pos _ _ Hne) as Hpos.
  pose proof (sliding_geometry_aligned _ _ _ Hgeo) as Hal.
  rewrite _is_path_clear_aligned by (trivial; lia).
  revert Hgeo. unfold sliding_geometry, file_delta, rank_delta.
  destruct (kind piece); try contradiction; intros Hgeo.
  - destruct (_ || _) eqn:E; [reflexivity | lia].
  - destruct (_ || _) eqn:E; [reflexivity | lia].
  - destruct (_ =? _) eqn:E; [reflexivity | lia].
Qed.

(** A sliding move of the wrong shape is refused before the loop is entered:
    no fuel is needed. *)
Lemma is_legal_move_unaligned (b : Board) (piece : Piece) (start end_ : Square) :
  ~ aligned start end_ ->
  exists r, is_legal_move 0 b piece start end_ = Some r.
Proof.
  unfold aligned, file_delta, rank_delta, is_legal_move. intros Hal.
  destruct (decide (start = end_)); [eauto|].
  destruct (negb (in_bounds end_)); [eauto|].
  destruct (holds_color _ _); [eauto|].
  destruct (kind piece);
    repeat match goal with
           | |- exists _, (if ?c then _ else _) = _ => destruct c eqn:?
           end; eauto; exfalso; apply Hal; lia.
Qed.

Lemma is_legal_move_total (fuel : nat) (b : Board) (piece : Piece) (start end_ : Square) :
  (Z.to_nat (distance start end_) <= fuel)%nat ->
  exists r, is_legal_move fuel b piece start end_ = Some r.
Proof.
  intros Hfuel. unfold is_legal_move.
  destruct (decide (start = end_)) as [|Hne]; [eauto|].
  pose proof (distance_pos _ _ Hne) as Hpos.
  destruct (negb _); [eauto|]. destruct (holds_color _ _); [eauto|].
  destruct (kind piece);
    repeat match goal with
           | |- exists _, (if ?c then _ else _) = _ => destruct c eqn:?
           end; eauto;
    rewrite _is_path_clear_aligned; eauto; try lia;
    unfold aligned, file_delta, rank_delta; lia.
Qed.

Lemma _is_path_clear_no_fuel (b : Board) (start end_ : Square) :
  _is_path_clear 0 b start end_ = None.
Proof. reflexivity. Qed.

(** Off the lines the loop steps past its target for ever: from a1 towards
    b3 on an empty board no amount of fuel is enough. *)
Lemma _is_path_clear_unaligned_runs_on (fuel : nat) :
  _is_path_clear fuel ∅ (0, 0) (1, 2) = None.
Proof.
  unfold _is_path_clear. simpl.
  change (unit_step (1 - 0)) with 1. change (unit_step (2 - 0)) with 1.
  change (0 + 1) with 1.
  assert (H : forall k, 1 <= k -> path_loop fuel ∅ 1 1 (1, 2) (k, k) = None).
  { induction fuel as [|fuel IH]; intros k Hk; [reflexivity|]. simpl.
    destruct (decide _) as [Heq|_]; [inversion Heq; lia|].
    unfold get_piece. rewrite lookup_empty. apply IH. lia. }
  apply H. lia.
Qed.

Lemma all_empty_occupied (b : Board) (squares : list Square) (s : Square) :
  In s squares -> is_Some (get_piece b s) -> all_empty b squares = false.
Proof.
  intros Hin [p Hp]. destruct (all_empty b squares) eqn:E; [|reflexivity].
  unfold all_empty in E. rewrite forallb_forall in E.
  specialize (E s Hin). rewrite Hp in E. discriminate.
Qed.

Lemma is_legal_move_not_own (fuel : nat) (b : Board) (piece : Piece) (start end_ : Square) :
  is_legal_move fuel b piece start end_ = Some true ->
  holds_color (get_piece b end_) (color piece) = false.
Proof.
  unfold is_legal_move.
  destruct (decide (start = end_)); [discriminate|].
  destruct (negb (in_bounds end_)); [discriminate|].
  destruct (holds_color _ _); [discriminate | reflexivity].
Qed.

Lemma is_legal_move_distinct (fuel : nat) (b : Board) (piece : Piece) (start end_ : Square) :
  is_legal_move fuel b piece start end_ = Some true -> start <> end_.
Proof.
  unfold is_legal_move.
  destruct (decide (start = end_)); [discriminate | trivial].
Qed.

(** C9. Every call of [is_legal_move] returns: [distance start end_] units of
    fuel are enough and the answer is the same with any more. The loop is
    entered only on aligned squares (on others the predicate answers with no
    fuel at all), and on aligned squares the loop ends within [distance]
    tests (one when the squares coincide). *)
Theorem is_legal_move_terminates (b : Board) (piece : Piece) (start end_ : Square) :
  (exists r, forall fuel, (Z.to_nat (distance start end_) <= fuel)%nat ->
     is_legal_move fuel b piece start end_ = Some r)
  /\ (~ aligned start end_ ->
      exists r, is_legal_move 0 b piece start end_ = Some r)
  /\ (aligned start end_ ->
      forall fuel, (1 <= fuel)%nat -> (Z.to_nat (distance start end_) <= fuel)%nat ->
        exists r, _is_path_clear fuel b start end_ = Some r).
Proof.
  split; [|split].
  - destruct (is_legal_move_total (Z.to_nat (distance start end_)) b piece start end_)
      as [r Hr]; [lia|].
    exists r. intros fuel Hfuel. eapply is_legal_move_mono; eauto.
  - apply is_legal_move_unaligned.
  - intros Hal fuel H1 Hfuel. eexists. apply _is_path_clear_aligned; assumption.
Qed.

Lemma is_legal_move_terminates_witness :
  is_legal_move 7 ∅ (mkPiece WHITE ROOK) (0, 0) (0, 7) = Some true
  /\ is_legal_move 64 ∅ (mkPiece WHITE ROOK) (0, 0) (0, 7) = Some true
  /\ is_legal_move 0 ∅ (mkPiece WHITE ROOK) (0, 0) (1, 2) = Some false
  /\ _is_path_clear 7 ∅ (0, 0) (0, 7) = Some true.
Proof.
  destruct (is_legal_move_terminates ∅ (mkPiece WHITE ROOK) (0, 0) (0, 7))
    as ((r & Hr) & _ & Hloop).
  destruct (is_legal_move_terminates ∅ (mkPiece WHITE ROOK) (0, 0) (1, 2))
    as (_ & Hoff & _).
  assert (r = true) as ->.
  { specialize (Hr 7%nat (Nat.le_refl 7)). vm_compute in Hr. congruence. }
  split; [|split; [|split]].
  - apply Hr. vm_compute. lia.
  - apply Hr. vm_compute. lia.
  - destruct Hoff as [r Hr'].
    + unfold aligned, file_delta, rank_delta. simpl. lia.
    + rewrite Hr'. vm_compute in Hr'. congruence.
  - destruct (Hloop ltac:(left; reflexivity) 7%nat ltac:(lia) ltac:(vm_compute; lia))
      as [r Hr'].
    rewrite Hr'. vm_compute in Hr'. congruence.
Defined.

(** C4. A bishop, rook or queen move of the right shape is illegal as soon
    as one square strictly between its ends holds a piece, of either colour;
    a knight or king move is decided by the two ends and the destination
    square alone: boards that agree on the destination give the same answer,
    without the loop (no fuel is used). *)
Theorem sliding_blocked_leapers_not :
  (forall (fuel : nat) (b : Board) (piece : Piece) (start end_ s : Square),
     sliding_geometry (kind piece) start end_ ->
     strictly_between start end_ s ->
     is_Some (get_piece b s) ->
     is_legal_move fuel b piece start end_ <> Some true
     /\ ((Z.to_nat (distance start end_) <= fuel)%nat ->
         is_legal_move fuel b piece start end_ = Some false))
  /\ (forall (fuel : nat) (b b' : Board) (piece : Piece) (start end_ : Square),
        kind piece = KNIGHT \/ kind piece = KING ->
        get_piece b end_ = get_piece b' end_ ->
        is_legal_move fuel b piece start end_ = is_legal_move fuel b' piece start end_
        /\ is_legal_move fuel b piece start end_ = is_legal_move 0 b piece start end_
        /\ is_Some (is_legal_move fuel b piece start end_)).
Proof.
  split.
  - intros fuel b piece start end_ s Hgeo Hbetween Hocc.
    assert (Hfalse : forall fuel', (Z.to_nat (distance start end_) <= fuel')%nat ->
              is_legal_move fuel' b piece start end_ = Some false).
    { intros fuel' Hfuel. rewrite is_legal_move_sliding by assumption.
      rewrite (all_empty_occupied b (path start end_) s); trivial.
      - rewrite andb_false_r. reflexivity.
      - apply path_strictly_between. exact Hbetween. }
    split; [|apply Hfalse].
    intros Htrue.
    apply (is_legal_move_mono fuel (Nat.max fuel (Z.to_nat (distance start end_)))) in Htrue;
      [|lia].
    rewrite Hfalse in Htrue by lia. discriminate.
  - intros fuel b b' piece start end_ Hk Hend. unfold is_legal_move.
    rewrite <- Hend.
    destruct (decide (start = end_)); [eauto|].
    destruct (negb (in_bounds end_)); [eauto|].
    destruct (holds_color _ _); [eauto|].
    destruct Hk as [-> | ->]; eauto.
Qed.

Lemma sliding_blocked_leapers_not_witness :
  is_legal_move 2 from_initial_position (mkPiece WHITE ROOK) (0, 0) (0, 2) = Some false
  /\ is_legal_move 0 from_initial_position (mkPiece WHITE KNIGHT) (6, 0) (5, 2)
     = is_legal_move 0 (delete (6, 1) from_initial_position) (mkPiece WHITE KNIGHT) (6, 0) (5, 2).
Proof.
  destruct sliding_blocked_leapers_not as [H1 H2]. split.
  - apply (H1 2%nat from_initial_position (mkPiece WHITE ROOK) (0, 0) (0, 2) (0, 1)).
    + left. reflexivity.
    + exists 1. split; [vm_compute; split; reflexivity | reflexivity].
    + eexists. vm_compute. reflexivity.
    + vm_compute. lia.
  - apply H2.
    + left. reflexivity.
    + vm_compute. reflexivity.
Defined.

(** C3. For a pawn, two distinct squares with the destination on the board
    and not held by a piece of the pawn's colour, [is_legal_move] answers
    true exactly for: one step straight ahead onto an empty square; two steps
    straight ahead from the pawn's starting rank with the destination and the
    square in between both empty; one step diagonally ahead onto a square
    held by an opponent piece. (That [start] is on the board is not needed.) *)
Theorem pawn_legal_moves (fuel : nat) (b : Board) (P : Piece) (start end_ : Square) :
  kind P = PAWN ->
  start <> end_ ->
  in_bounds end_ = true ->
  (forall t, get_piece b end_ = Some t -> color t <> color P) ->
  exists r, is_legal_move fuel b P start end_ = Some r /\
    (r = true <->
       (file_delta start end_ = 0
        /\ rank_delta start end_ = pawn_direction (color P)
        /\ get_piece b end_ = None)
       \/ (file_delta start end_ = 0
           /\ rank_delta start end_ = 2 * pawn_direction (color P)
           /\ start.2 = pawn_start_rank (color P)
           /\ get_piece b end_ = None
           /\ get_piece b (start.1, start.2 + pawn_direction (color P)) = None)
       \/ (Z.abs (file_delta start end_) = 1
           /\ rank_delta start end_ = pawn_direction (color P)
           /\ exists t, get_piece b end_ = Some t /\ color t = opponent (color P))).
Proof.
  destruct P as [c k]. simpl. intros -> Hne Hin Hown.
  unfold is_legal_move, file_delta, rank_delta. simpl.
  destruct (decide (start = end_)); [contradiction|]. rewrite Hin. simpl.
  assert (Hh : holds_color (get_piece b end_) c = false).
  { destruct (get_piece b end_) as [t|] eqn:Ht; [|reflexivity]. simpl.
    apply bool_decide_eq_false_2. eauto. }
  rewrite Hh.
  destruct (get_piece b end_) as [[tc tk]|] eqn:Ht;
    [specialize (Hown _ eq_refl); simpl in Hown|];
    destruct (get_piece b (start.1, start.2 + _)) as [i|] eqn:Hi;
    destruct c; simpl in *;
    try (destruct tc; try contradiction; simpl);
    repeat match goal with
           | |- exists _, (if ?c then _ else _) = _ /\ _ => destruct c eqn:?
           end;
    eexists; (split; [reflexivity|]);
    rewrite ?Hi; simpl;
    (split; [try discriminate; intros _ | intros H; try reflexivity; exfalso]).
  all: try (first
    [ left; solve [repeat split; first [lia | reflexivity]]
    | right; left; solve [repeat split; first [lia | reflexivity]]
    | right; right;
      solve [repeat split; first [lia | reflexivity | eexists; split; reflexivity]] ]).
  all: destruct H as [(? & ? & ?) | [(? & ? & ? & ? & ?) | (? & ? & ? & ? & ?)]];
    try discriminate; lia.
Qed.

Lemma pawn_legal_moves_witness :
  exists r, is_legal_move 0 from_initial_position (mkPiece WHITE PAWN) (4, 1) (4, 3) = Some r.
Proof.
  destruct (pawn_legal_moves 0 from_initial_position (mkPiece WHITE PAWN) (4, 1) (4, 3))
    as (r & Hr & _).
  - reflexivity.
  - discriminate.
  - reflexivity.
  - intros t Ht. vm_compute in Ht. discriminate.
  - exists r. exact Hr.
Defined.

(** ** Executing a move *)

Lemma holds_color_false (target : option Piece) (c : Color) :
  holds_color target c = false <-> forall t, target = Some t -> color t <> c.
Proof.
  destruct target as [t|]; simpl.
  - rewrite bool_decide_eq_false. split.
    + intros H t' [= <-]. exact H.
    + intros H. apply (H t). reflexivity.
  - split; [intros _ t [=] | reflexivity].
Qed.

Lemma raise_naming_not_ok (squares : list Square) (e : Error) (u : unit) :
  raise_naming squares e <> Ok u.
Proof. unfold raise_naming. destruct (naming_error squares); discriminate. Qed.

(** A call that returns has found a piece on [start], judged the move legal,
    and leaves the board with [start] emptied and the piece, or what it is
    promoted to, on [end_]. *)
Lemma move_piece_ok_inv (fuel : nat) (b : Board) (start end_ : Square)
    (promotion : option PieceType) (b' : Board) (u : unit) :
  move_piece fuel b start end_ promotion = Some (b', Ok u) ->
  exists piece,
    get_piece b start = Some piece
    /\ is_legal_move fuel b piece start end_ = Some true
    /\ b' = <[end_ := landed piece end_ promotion]> (delete start b).
Proof.
  destruct u. unfold move_piece. destruct (get_piece b start) as [piece|] eqn:Hp.
  2:{ intros [= _ H]. exfalso. exact (raise_naming_not_ok _ _ _ H). }
  destruct (is_legal_move fuel b piece start end_) as [[|]|] eqn:Hl; [| |discriminate].
  2:{ intros [= _ H]. exfalso. exact (raise_naming_not_ok _ _ _ H). }
  pose proof (is_legal_move_distinct _ _ _ _ _ Hl) as Hne.
  rewrite (is_legal_move_not_own _ _ _ _ _ Hl).
  intros H. exists piece. split; [reflexivity|]. split; [exact Hl|].
  revert H. unfold landed, set_piece, BOARD_SIZE. simpl.
  change (8 - 1) with 7.
  destruct (kind piece) eqn:Hk; simpl;
    try (intros [= <-]; apply delete_insert_ne; congruence).
  destruct ((end_.2 =? 0) || (end_.2 =? 7)) eqn:Hr; simpl.
  - destruct (bool_decide _ || bool_decide _); [intros H; discriminate H|].
    intros [= <-].
    rewrite delete_insert_ne by congruence. apply insert_insert_eq.
  - intros [= <-]. apply delete_insert_ne. congruence.
Qed.

(** Every failure except the refusal of the promotion kind is raised before
    the board is touched. *)
Lemma move_piece_err_inv (fuel : nat) (b : Board) (start end_ : Square)
    (promotion : option PieceType) (b' : Board) (e : Error) :
  move_piece fuel b start end_ promotion = Some (b', Err e) ->
  e <> OwnPieceCapture
  /\ (e <> InvalidPromotion -> b' = b)
  /\ (e = InvalidPromotion ->
      (promotion = Some PAWN \/ promotion = Some KING)
      /\ exists piece, get_piece b start = Some piece
                       /\ b' = delete start (<[end_ := piece]> b)).
Proof.
  unfold move_piece, raise_naming. destruct (get_piece b start) as [piece|] eqn:Hp.
  2:{ simpl. unfold square_name. destruct start as [sf sr].
      destruct (negb _); [|destruct (String.get _ _)];
        intros [= <- <-]; repeat split; congruence. }
  destruct (is_legal_move fuel b piece start end_) as [[|]|] eqn:Hl; [| |discriminate].
  2:{ simpl. unfold square_name. destruct start as [sf sr], end_ as [ef er].
      destruct (negb _); [|destruct (String.get _ _); [destruct (negb _);
        [|destruct (String.get _ _)]|]];
        intros [= <- <-]; repeat split; congruence. }
  rewrite (is_legal_move_not_own _ _ _ _ _ Hl).
  destruct (_ && _); [|discriminate].
  destruct (_ || _) eqn:Hpromo; [|discriminate].
  intros [= <- <-]. split; [discriminate|]. split; [congruence|]. intros _. split.
  - destruct promotion as [[]|]; simpl in Hpromo; try discriminate; auto.
  - exists piece. split; reflexivity.
Qed.

(** C2. After a call of [move_piece] that returns, [start] is empty and
    [end_] holds the piece that stood on [start]; only a pawn that reaches
    rank index 0 or 7 is replaced there by a piece of its colour, of the kind
    given as [promotion], a queen if none is given. *)
Theorem move_piece_relocates (fuel : nat) (b : Board) (start end_ : Square)
    (promotion : option PieceType) (b' : Board) :
  move_piece fuel b start end_ promotion = Some (b', Ok tt) ->
  exists piece,
    get_piece b start = Some piece
    /\ get_piece b' start = None
    /\ (kind piece = PAWN /\ (end_.2 = 0 \/ end_.2 = 7) ->
        get_piece b' end_
        = Some (mkPiece (color piece)
                  (match promotion with Some k => k | None => QUEEN end)))
    /\ (~ (kind piece = PAWN /\ (end_.2 = 0 \/ end_.2 = 7)) ->
        get_piece b' end_ = Some piece).
Proof.
  intros H. apply move_piece_ok_inv in H as (piece & Hp & Hl & ->).
  pose proof (is_legal_move_distinct _ _ _ _ _ Hl) as Hne.
  exists piece. unfold get_piece. split; [exact Hp|]. split.
  { rewrite lookup_insert_ne by congruence. apply lookup_delete_eq. }
  rewrite lookup_insert_eq. unfold landed. split.
  - intros [-> Hr]. replace ((end_.2 =? 0) || (end_.2 =? 7)) with true by lia.
    destruct promotion; reflexivity.
  - intros Hnot. destruct (kind piece) eqn:Hk; try reflexivity.
    destruct (_ || _) eqn:Hr; [|reflexivity].
    exfalso. apply Hnot. split; [reflexivity | lia].
Qed.

Lemma returns_ok {S : Type} (c : option (S * res unit)) :
  snd <$> c = Some (Ok tt) -> exists s, c = Some (s, Ok tt).
Proof.
  destruct c as [[s [[]|e]]|]; simpl; intros H; try discriminate H.
  exists s. reflexivity.
Qed.

Lemma move_piece_relocates_witness :
  exists piece,
    get_piece from_initial_position (4, 1) = Some piece
    /\ observe [(4, 1); (4, 3)] (move_piece 0 from_initial_position (4, 1) (4, 3) None)
       = Some (Ok tt, [None; Some piece]).
Proof.
  destruct (returns_ok (move_piece 0 from_initial_position (4, 1) (4, 3) None))
    as [b' E]; [vm_compute; reflexivity|].
  destruct (move_piece_relocates _ _ _ _ _ _ E) as (piece & Hp & Hs & _ & He).
  exists piece. split; [exact Hp|]. rewrite E. simpl. rewrite Hs, He; [reflexivity|].
  simpl. lia.
Defined.

(** C10. A call of [move_piece] that returns leaves every square other than
    [start] and [end_] as it was. *)
Theorem move_piece_frame (fuel : nat) (b : Board) (start end_ : Square)
    (promotion : option PieceType) (b' : Board) :
  move_piece fuel b start end_ promotion = Some (b', Ok tt) ->
  forall s : Square, s <> start -> s <> end_ -> get_piece b' s = get_piece b s.
Proof.
  intros H s Hs He. apply move_piece_ok_inv in H as (piece & _ & _ & ->).
  unfold get_piece. rewrite lookup_insert_ne by congruence.
  apply lookup_delete_ne. congruence.
Qed.

Lemma move_piece_frame_witness :
  observe [(3, 1); (4, 6)] (move_piece 0 from_initial_position (4, 1) (4, 3) None)
  = Some (Ok tt, map (get_piece from_initial_position) [(3, 1); (4, 6)]).
Proof.
  destruct (returns_ok (move_piece 0 from_initial_position (4, 1) (4, 3) None))
    as [b' E]; [vm_compute; reflexivity|].
  rewrite E. simpl.
  rewrite !(move_piece_frame _ _ _ _ _ _ E) by discriminate. reflexivity.
Defined.

(** C8. A move that [is_legal_move] accepts never lands on a piece of the
    mover's colour, so [move_piece] never raises OwnPieceCapture. *)
Theorem own_piece_capture_unreachable :
  (forall (fuel : nat) (b : Board) (piece : Piece) (start end_ : Square),
     is_legal_move fuel b piece start end_ = Some true ->
     forall t, get_piece b end_ = Some t -> color t <> color piece)
  /\ (forall (fuel : nat) (b : Board) (start end_ : Square)
        (promotion : option PieceType) (b' : Board),
        move_piece fuel b start end_ promotion <> Some (b', Err OwnPieceCapture)).
Proof.
  split.
  - intros fuel b piece start end_ H. apply holds_color_false.
    eapply is_legal_move_not_own. exact H.
  - intros fuel b start end_ promotion b' H.
    apply move_piece_err_inv in H as (H & _). congruence.
Qed.

Lemma own_piece_capture_unreachable_witness :
  let b : Board := {[ (0, 0) := mkPiece WHITE ROOK; (0, 5) := mkPiece BLACK PAWN ]} in
  is_legal_move 5 b (mkPiece WHITE ROOK) (0, 0) (0, 5) = Some true
  /\ exists t, get_piece b (0, 5) = Some t /\ color t = BLACK.
Proof.
  intros b. destruct own_piece_capture_unreachable as [H _].
  assert (Hl : is_legal_move 5 b (mkPiece WHITE ROOK) (0, 0) (0, 5) = Some true)
    by (vm_compute; reflexivity).
  assert (Hg : get_piece b (0, 5) = Some (mkPiece BLACK PAWN))
    by (vm_compute; reflexivity).
  split; [exact Hl|]. exists (mkPiece BLACK PAWN). split; [exact Hg|].
  pose proof (H _ _ _ _ _ Hl _ Hg) as Hc.
  destruct (color (mkPiece BLACK PAWN)) eqn:E; [|reflexivity].
  exfalso. apply Hc. reflexivity.
Defined.

(** The failures other than the refusal of the promotion kind leave the
    board as it was. *)
Lemma move_piece_failure_before_mutation (fuel : nat) (b : Board) (start end_ : Square)
    (promotion : option PieceType) (b' : Board) (e : Error) :
  move_piece fuel b start end_ promotion = Some (b', Err e) ->
  e <> InvalidPromotion -> b' = b.
Proof. intros H. apply move_piece_err_inv in H. tauto. Qed.

(** C1, at a board where it fails. With a white pawn alone on a7, the call
    [move_piece(a7, a8, promotion=KING)] raises InvalidPromotion after the
    pawn has been moved: a7 is empty and the pawn stands on a8 when the
    error reaches the caller. *)
Theorem move_piece_invalid_promotion_mutates :
  let b : Board := {[ (0, 6) := mkPiece WHITE PAWN ]} in
  map (get_piece b) [(0, 6); (0, 7)] = [Some (mkPiece WHITE PAWN); None]
  /\ observe [(0, 6); (0, 7)] (move_piece 0 b (0, 6) (0, 7) (Some KING))
     = Some (Err InvalidPromotion, [None; Some (mkPiece WHITE PAWN)]).
Proof. split; vm_compute; reflexivity. Qed.

(** ** The game *)

Lemma opponent_involutive (c : Color) : opponent (opponent c) = c.
Proof. destruct c; reflexivity. Qed.

Lemma parse_square_err (name : string) (e : Error) :
  parse_square name = Err e -> e = InvalidNotation.
Proof.
  unfold parse_square. destruct name as [|c0 [|c1 [|c2 n]]]; try congruence.
  destruct (_ || _); congruence.
Qed.

Lemma apply_move_ok_inv (fuel : nat) (g : ChessGame) (m : Move) (g' : ChessGame) (u : unit) :
  apply_move fuel g m = Some (g', Ok u) ->
  turn g' = opponent (turn g) /\ history g' = history g ++ [m].
Proof.
  unfold apply_move.
  destruct (parse_square (start m)) as [s|]; [|discriminate].
  destruct (parse_square (end_ m)) as [e|]; [|discriminate].
  destruct (get_piece (board g) s); [|discriminate].
  destruct (negb _); [discriminate|].
  destruct (move_piece fuel (board g) s e (promotion m)) as [[b' [[]|]]|];
    [|discriminate..].
  intros [= <-]. split; reflexivity.
Qed.

(** A failed [apply_move] leaves turn and history alone, and the board too
    unless the failure is the refusal of the promotion kind, which needs a
    move that asks for a pawn or a king. *)
Lemma apply_move_err_inv (fuel : nat) (g : ChessGame) (m : Move) (g' : ChessGame) (e : Error) :
  apply_move fuel g m = Some (g', Err e) ->
  turn g' = turn g /\ history g' = history g
  /\ (e <> InvalidPromotion -> g' = g)
  /\ (e = InvalidPromotion -> promotion m = Some PAWN \/ promotion m = Some KING).
Proof.
  unfold apply_move. destruct g as [b t h]. simpl.
  destruct (parse_square (start m)) as [s|e0] eqn:Hs;
    [|apply parse_square_err in Hs as ->;
      intros [= <- <-]; repeat split; congruence].
  destruct (parse_square (end_ m)) as [e'|e0] eqn:He;
    [|apply parse_square_err in He as ->;
      intros [= <- <-]; repeat split; congruence].
  destruct (get_piece b s); [|intros [= <- <-]; repeat split; congruence].
  destruct (negb _); [intros [= <- <-]; repeat split; congruence|].
  destruct (move_piece fuel b s e' (promotion m)) as [[b' [[]|e'']]|] eqn:Hm;
    [discriminate | | discriminate].
  intros [= <- <-]. simpl. apply move_piece_err_inv in Hm as (_ & Hb & Hp).
  repeat split; try tauto. intros Hne. rewrite (Hb Hne). reflexivity.
Qed.

Lemma _promotion_from_char_kinds (char : ascii) (k : PieceType) :
  _promotion_from_char char = Ok k -> k <> PAWN /\ k <> KING.
Proof.
  unfold _promotion_from_char.
  repeat (destruct (Ascii.eqb char _); [intros [= <-]; split; discriminate|]).
  discriminate.
Qed.

(** Through [apply_sanless] no move asks for a pawn or a king, so a failed
    call leaves the whole game as it was. *)
Lemma apply_sanless_err_inv (fuel : nat) (g : ChessGame) (notation : string)
    (g' : ChessGame) (e : Error) :
  apply_sanless fuel g notation = Some (g', Err e) -> g' = g.
Proof.
  unfold apply_sanless.
  destruct (negb _); [congruence|].
  destruct (_ =? 5)%nat.
  - destruct (String.get 4 _) as [c|]; [|congruence].
    destruct (_promotion_from_char c) as [k|] eqn:Hk; [|congruence].
    intros H. apply apply_move_err_inv in H as (_ & _ & Hne & Hp). simpl in Hp.
    apply _promotion_from_char_kinds in Hk.
    apply Hne. intros ->. destruct (Hp eq_refl) as [[= ->] | [= ->]]; tauto.
  - intros H. apply apply_move_err_inv in H as (_ & _ & Hne & Hp). simpl in Hp.
    apply Hne. intros ->. destruct (Hp eq_refl); discriminate.
Qed.

Lemma applied_spec (fuel : nat) (g : ChessGame) (ms : list Move) (g' : ChessGame) :
  applied fuel g ms g' ->
  history g' = history g ++ ms
  /\ turn g' = Nat.iter (length ms) opponent (turn g).
Proof.
  induction 1 as [g | g m g1 ms g2 Hm _ [IHh IHt]].
  - rewrite app_nil_r. split; reflexivity.
  - apply apply_move_ok_inv in Hm as [Ht Hh]. split.
    + rewrite IHh, Hh, <- app_assoc. reflexivity.
    + rewrite IHt, Ht. simpl. clear.
      induction (length ms) as [|n IH]; [reflexivity|]. simpl. rewrite IH. reflexivity.
Qed.

Lemma iter_opponent (n : nat) (c : Color) :
  Nat.iter n opponent c = if Nat.even n then c else opponent c.
Proof.
  induction n as [|n IH]; [reflexivity|].
  rewrite Nat.even_succ, <- Nat.negb_even. simpl. rewrite IH.
  destruct (Nat.even n); simpl; [reflexivity | apply opponent_involutive].
Qed.

(** C5. From a fresh game, after [N] calls of [apply_move] that all return,
    the turn is WHITE for even [N] and BLACK for odd [N] and the history has
    [N] entries (the moves, in order); a call that raises WrongTurn leaves
    turn and history as they were; and a move of a piece whose colour is not
    the turn's raises WrongTurn. *)
Theorem turn_alternates :
  (forall (fuel : nat) (ms : list Move) (g : ChessGame),
     applied fuel new_game ms g ->
     turn g = (if Nat.even (length ms) then WHITE else BLACK)
     /\ length (history g) = length ms
     /\ history g = ms)
  /\ (forall (fuel : nat) (g : ChessGame) (m : Move) (g' : ChessGame),
        apply_move fuel g m = Some (g', Err WrongTurn) ->
        turn g' = turn g /\ history g' = history g)
  /\ (forall (fuel : nat) (g : ChessGame) (m : Move) (s e : Square) (p : Piece),
        parse_square (start m) = Ok s ->
        parse_square (end_ m) = Ok e ->
        get_piece (board g) s = Some p ->
        color p <> turn g ->
        apply_move fuel g m = Some (g, Err WrongTurn)).
Proof.
  split; [|split].
  - intros fuel ms g H. apply applied_spec in H as [Hh Ht].
    simpl in Hh, Ht. rewrite Hh, Ht, iter_opponent. auto.
  - intros fuel g m g' H. apply apply_move_err_inv in H. tauto.
  - intros fuel g m s e p Hs He Hp Hc. unfold apply_move.
    rewrite Hs, He, Hp. rewrite bool_decide_eq_false_2 by exact Hc. reflexivity.
Qed.

Lemma turn_alternates_witness :
  (exists g, applied 0 new_game [mkMove "e2" "e4" None] g
             /\ turn g = BLACK /\ length (history g) = 1%nat)
  /\ apply_move 0 new_game (mkMove "e7" "e5" None) = Some (new_game, Err WrongTurn).
Proof.
  destruct turn_alternates as (Hseq & Hkeep & Hwrong). split.
  - destruct (returns_ok (apply_move 0 new_game (mkMove "e2" "e4" None))) as [g E];
      [vm_compute; reflexivity|].
    assert (Ha : applied 0 new_game [mkMove "e2" "e4" None] g)
      by (econstructor; [exact E | constructor]).
    exists g. split; [exact Ha|].
    destruct (Hseq _ _ _ Ha) as (Ht & Hl & _). split; assumption.
  - apply (Hwrong 0%nat new_game (mkMove "e7" "e5" None) (4, 6) (4, 4)
             (mkPiece BLACK PAWN)).
    + reflexivity.
    + reflexivity.
    + vm_compute. reflexivity.
    + discriminate.
Defined.




(** ** Placing and reading pieces *)

(** X1. Reading a square after [set_piece] gives what was put there (a piece,
    or nothing after a removal, also when the square was already empty), and
    every other square reads as before. *)
Theorem get_piece_set_piece (b : Board) (s s' : Square) (o : option Piece) :
  get_piece (set_piece b s o) s' = if decide (s = s') then o else get_piece b s'.
Proof.
  unfold get_piece, set_piece. destruct o as [p|].
  - rewrite lookup_insert. destruct (decide (s = s')); reflexivity.
  - rewrite lookup_delete. destruct (decide (s = s')); reflexivity.
Qed.

(** ** Symbols and the starting position *)

(** X2. The symbol of a piece is one character, never the dot of an empty
    square, and tells the piece: two pieces with the same symbol are the same
    piece. *)
Theorem symbol_identifies_piece :
  (forall p1 p2 : Piece, symbol p1 = symbol p2 -> p1 = p2)
  /\ (forall p : Piece, String.length (symbol p) = 1%nat /\ symbol p <> "."%string).
Proof.
  split.
  - intros [[] []] [[] []]; vm_compute; intros H; congruence.
  - intros [[] []]; vm_compute; split; congruence.
Qed.

Lemma symbol_identifies_piece_witness :
  symbol (mkPiece BLACK KNIGHT) = "n"%string
  /\ (symbol (mkPiece BLACK KNIGHT) = symbol (mkPiece BLACK KNIGHT)
      /\ mkPiece BLACK KNIGHT = mkPiece BLACK KNIGHT).
Proof.
  destruct symbol_identifies_piece as [H _].
  split; [reflexivity|]. split; [reflexivity|].
  apply (H (mkPiece BLACK KNIGHT) (mkPiece BLACK KNIGHT)). reflexivity.
Defined.

(** What the loop of [reset] leaves on a square: the four pieces of the
    files it has run over, and what was there before everywhere else. *)
Lemma reset_loop (l : list PieceType) :
  forall (i : Z) (g : Board) (f r : Z),
    fold_left
      (fun (grid : Board) '(file_index, kind) =>
         <[(file_index, 7) := mkPiece BLACK kind]>
           (<[(file_index, 6) := mkPiece BLACK PAWN]>
              (<[(file_index, 1) := mkPiece WHITE PAWN]>
                 (<[(file_index, 0) := mkPiece WHITE kind]> grid))))
      (enumerate_from i l) g !! (f, r)
    = match (if i <=? f then l !! Z.to_nat (f - i) else None) with
      | Some k =>
          if r =? 0 then Some (mkPiece WHITE k)
          else if r =? 1 then Some (mkPiece WHITE PAWN)
          else if r =? 6 then Some (mkPiece BLACK PAWN)
          else if r =? 7 then Some (mkPiece BLACK k)
          else g !! (f, r)
      | None => g !! (f, r)
      end.
Proof.
  induction l as [|k l IH]; intros i g f r; simpl.
  - destruct (i <=? f); reflexivity.
  - rewrite IH. clear IH.
    destruct (decide (f = i)) as [-> | Hne].
    + replace (i + 1 <=? i) with false by lia.
      replace (i <=? i) with true by lia.
      replace (Z.to_nat (i - i)) with 0%nat by lia. simpl.
      rewrite !lookup_insert.
      repeat match goal with
             | |- context [decide (?a = ?b)] => destruct (decide (a = b)) as [[= ?]|?]
             end;
        repeat match goal with
               | |- context [?x =? ?y] => destruct (Z.eqb_spec x y)
               end; try reflexivity; try lia; congruence.
    + rewrite !lookup_insert_ne by congruence.
      destruct (i <=? f) eqn:Hle.
      * replace (i + 1 <=? f) with true by lia.
        replace (Z.to_nat (f - i)) with (S (Z.to_nat (f - (i + 1)))) by lia.
        reflexivity.
      * replace (i + 1 <=? f) with false by lia. reflexivity.
Qed.

Lemma reset_lookup (b : Board) (f r : Z) :
  reset b !! (f, r) = start_piece (f, r).
Proof.
  unfold reset, start_piece.
  rewrite reset_loop, Z.sub_0_r, lookup_empty.
  destruct (0 <=? f) eqn:H0; simpl; [|reflexivity].
  destruct (f <? 8) eqn:H8; simpl.
  - destruct (back_rank !! Z.to_nat f) as [k|] eqn:Hk; simpl.
    + reflexivity.
    + repeat match goal with
             | |- context [?x =? ?y] => destruct (Z.eqb_spec x y)
             end; try reflexivity.
      all: apply lookup_ge_None in Hk; simpl in Hk; lia.
  - rewrite (proj2 (lookup_ge_None back_rank (Z.to_nat f))); [reflexivity|].
    simpl. lia.
Qed.

Lemma reset_on_board (b : Board) : on_board (reset b).
Proof.
  intros [f r] p. unfold get_piece. rewrite reset_lookup.
  unfold start_piece, in_bounds, BOARD_SIZE.
  destruct ((0 <=? f) && (f <? 8)) eqn:Hf; [|discriminate].
  repeat match goal with
         | |- context [?x =? ?y] => destruct (Z.eqb_spec x y)
         end; try discriminate; intros _; lia.
Qed.

(** X3. Whatever the board held, after [reset] each square holds what the
    standard starting position has there: on files 0..7 the white back rank
    on rank 0, white pawns on rank 1, black pawns on rank 6, the black back
    rank on rank 7, and nothing on any other square, on or off the board. *)
Theorem reset_start_position (b : Board) (square : Square) :
  get_piece (reset b) square = start_piece square.
Proof.
  destruct square as [f r]. unfold get_piece.
  rewrite reset_lookup. reflexivity.
Qed.

(** X4. The starting position is mirrored: the square opposite a square
    across the middle of the board (rank [7 - r] for rank [r]) holds the same
    kind of piece in the other colour, or is empty too; and all its pieces
    stand on the 64 squares. *)
Theorem reset_mirrored (b : Board) :
  (forall f r : Z,
     get_piece (reset b) (f, 7 - r) = recolor <$> get_piece (reset b) (f, r))
  /\ on_board (reset b).
Proof.
  split; [|apply reset_on_board].
  intros f r. unfold get_piece. rewrite !reset_lookup. unfold start_piece.
  destruct ((0 <=? f) && (f <? 8)); [|reflexivity].
  repeat match goal with
         | |- context [?x =? ?y] => destruct (Z.eqb_spec x y)
         end; try lia; try reflexivity;
    destruct (back_rank !! Z.to_nat f); reflexivity.
Qed.

(** ** What a move does to the board as a whole *)

Lemma is_legal_move_in_bounds (fuel : nat) (b : Board) (piece : Piece) (start end_ : Square) :
  is_legal_move fuel b piece start end_ = Some true -> in_bounds end_ = true.
Proof.
  unfold is_legal_move.
  destruct (decide (start = end_)); [discriminate|].
  destruct (in_bounds end_); [reflexivity | discriminate].
Qed.

(** Whatever the outcome, [move_piece] leaves the board untouched or with
    [start] emptied and some piece on [end_], a square of the board. *)
Lemma move_piece_shape (fuel : nat) (b : Board) (start end_ : Square)
    (promotion : option PieceType) (b' : Board) (r : res unit) :
  move_piece fuel b start end_ promotion = Some (b', r) ->
  b' = b
  \/ exists q, in_bounds end_ = true /\ start <> end_
               /\ b' = <[end_ := q]> (delete start b).
Proof.
  destruct r as [[]|e]; intros H.
  - apply move_piece_ok_inv in H as (piece & _ & Hl & ->). right.
    exists (landed piece end_ promotion).
    eauto using is_legal_move_in_bounds, is_legal_move_distinct.
  - revert H. unfold move_piece.
    destruct (get_piece b start) as [piece|]; [|intros [= <- _]; auto].
    destruct (is_legal_move fuel b piece start end_) as [[|]|] eqn:Hl;
      [| intros [= <- _]; auto | discriminate].
    destruct (holds_color _ _); [intros [= <- _]; auto|].
    destruct (_ && _); [|discriminate].
    destruct (_ || _); [|discriminate].
    intros [= <- _]. right. exists piece.
    pose proof (is_legal_move_distinct _ _ _ _ _ Hl).
    split; [eauto using is_legal_move_in_bounds|]. split; [assumption|].
    unfold set_piece. apply delete_insert_ne. congruence.
Qed.

Lemma on_board_insert_delete (b : Board) (start end_ : Square) (q : Piece) :
  on_board b -> in_bounds end_ = true -> on_board (<[end_ := q]> (delete start b)).
Proof.
  intros Hb Hin s p. unfold get_piece. rewrite lookup_insert.
  destruct (decide (end_ = s)) as [<- | Hne]; [intros _; exact Hin|].
  rewrite lookup_delete. destruct (decide (start = s)); [discriminate|].
  apply Hb.
Qed.

(** X5. [move_piece] never puts a piece off the board: if every piece stands
    on one of the 64 squares before the call, every piece does so after it,
    whether the call returns or raises. *)
Theorem move_piece_stays_on_board (fuel : nat) (b : Board) (start end_ : Square)
    (promotion : option PieceType) (b' : Board) (r : res unit) :
  on_board b ->
  move_piece fuel b start end_ promotion = Some (b', r) ->
  on_board b'.
Proof.
  intros Hb H. apply move_piece_shape in H as [-> | (q & Hin & _ & ->)].
  - exact Hb.
  - apply on_board_insert_delete; assumption.
Qed.

Lemma returns_some {S : Type} (c : option (S * res unit)) (r : res unit) :
  snd <$> c = Some r -> exists s, c = Some (s, r).
Proof.
  destruct c as [[s r']|]; simpl; intros H; [|discriminate H].
  injection H as ->. exists s. reflexivity.
Qed.

Lemma move_piece_stays_on_board_witness :
  exists b',
    move_piece 0 from_initial_position (4, 1) (4, 3) None = Some (b', Ok tt)
    /\ on_board b'.
Proof.
  destruct (returns_some (move_piece 0 from_initial_position (4, 1) (4, 3) None) (Ok tt))
    as [b' E]; [vm_compute; reflexivity|].
  exists b'. split; [exact E|].
  apply (move_piece_stays_on_board 0 from_initial_position (4, 1) (4, 3) None b' (Ok tt));
    [|exact E].
  apply reset_on_board.
Defined.

Lemma size_insert_delete (b : Board) (start end_ : Square) (piece q : Piece) :
  b !! start = Some piece -> start <> end_ ->
  size (<[end_ := q]> (delete start b))
  = match b !! end_ with Some _ => pred (size b) | None => size b end.
Proof.
  intros Hp Hne.
  assert (Hsize : size b = S (size (delete start b))).
  { rewrite <- (insert_id b start piece Hp) at 1.
    rewrite <- insert_delete_eq. apply map_size_insert_None, lookup_delete_eq. }
  rewrite map_size_insert, lookup_delete_ne by exact Hne.
  destruct (b !! end_); simpl; lia.
Qed.

(** X6. A call of [move_piece] that returns keeps the number of pieces when
    [end_] was empty and takes exactly one piece off the board when [end_]
    was occupied. *)
Theorem move_piece_piece_count (fuel : nat) (b : Board) (start end_ : Square)
    (promotion : option PieceType) (b' : Board) :
  move_piece fuel b start end_ promotion = Some (b', Ok tt) ->
  size b' = match get_piece b end_ with
            | Some _ => pred (size b)
            | None => size b
            end.
Proof.
  intros H. apply move_piece_ok_inv in H as (piece & Hp & Hl & ->).
  pose proof (is_legal_move_distinct _ _ _ _ _ Hl) as Hne.
  unfold get_piece in *. eapply size_insert_delete; eauto.
Qed.

Lemma move_piece_piece_count_witness :
  let b : Board := {[ (0, 0) := mkPiece WHITE ROOK; (0, 5) := mkPiece BLACK PAWN ]} in
  exists b', move_piece 5 b (0, 0) (0, 5) None = Some (b', Ok tt) /\ size b' = 1%nat.
Proof.
  intros b.
  destruct (returns_some (move_piece 5 b (0, 0) (0, 5) None) (Ok tt))
    as [b' E]; [vm_compute; reflexivity|].
  exists b'. split; [exact E|].
  rewrite (move_piece_piece_count _ _ _ _ _ _ E). vm_compute. reflexivity.
Defined.

Lemma square_name_in_bounds (s : Square) :
  in_bounds s = true -> exists n, square_name s = Ok n.
Proof.
  destruct s as [f r]. intros H. apply in_bounds_iff in H as [Hf Hr].
  destruct (square_name_parse f r Hf Hr) as (n & Hn & _). eauto.
Qed.

Lemma square_name_out_of_bounds (s : Square) :
  in_bounds s = false -> square_name s = Err OutOfBounds.
Proof.
  destruct s as [f r]. intros H. apply square_name_rejects.
  intros Hb. apply in_bounds_iff in Hb. congruence.
Qed.

(** X7. A move to a square off the board is refused without touching the
    board, and the error is the one of naming the square, "Square out of
    bounds", not "Illegal move"; only when [start] is an empty square of the
    board is the error "No piece at square". *)
Theorem move_piece_off_board (fuel : nat) (b : Board) (start end_ : Square)
    (promotion : option PieceType) :
  in_bounds end_ = false ->
  move_piece fuel b start end_ promotion
  = Some (b, Err (match get_piece b start with
                  | None => if in_bounds start then NoPieceAtSquare else OutOfBounds
                  | Some _ => OutOfBounds
                  end)).
Proof.
  intros Hend. unfold move_piece, is_legal_move, raise_naming. simpl.
  rewrite Hend. simpl.
  destruct (get_piece b start) as [piece|].
  - destruct (decide (start = end_)) as [-> | _].
    + rewrite (square_name_out_of_bounds _ Hend). reflexivity.
    + destruct (in_bounds start) eqn:Hs.
      * destruct (square_name_in_bounds _ Hs) as [n ->].
        rewrite (square_name_out_of_bounds _ Hend). reflexivity.
      * rewrite (square_name_out_of_bounds _ Hs). reflexivity.
  - destruct (in_bounds start) eqn:Hs.
    + destruct (square_name_in_bounds _ Hs) as [n ->]. reflexivity.
    + rewrite (square_name_out_of_bounds _ Hs). reflexivity.
Qed.

Lemma move_piece_off_board_witness :
  observe [(0, 0)] (move_piece 0 {[ (0, 0) := mkPiece WHITE ROOK ]} (0, 0) (0, 8) None)
  = Some (Err OutOfBounds, [Some (mkPiece WHITE ROOK)]).
Proof.
  rewrite (move_piece_off_board 0 {[ (0, 0) := mkPiece WHITE ROOK ]} (0, 0) (0, 8) None)
    by reflexivity.
  vm_compute. reflexivity.
Defined.

(** X8. The queen moves as a bishop or as a rook: on every board and for
    every pair of squares [is_legal_move] answers for a queen the
    disjunction of its answers for a bishop and for a rook of that colour
    (and runs out of fuel exactly when one of those does). *)
Theorem queen_is_bishop_or_rook (fuel : nat) (b : Board) (c : Color) (start end_ : Square) :
  is_legal_move fuel b (mkPiece c QUEEN) start end_
  = match is_legal_move fuel b (mkPiece c BISHOP) start end_,
          is_legal_move fuel b (mkPiece c ROOK) start end_ with
    | Some diagonal, Some straight => Some (diagonal || straight)
    | _, _ => None
    end.
Proof.
  unfold is_legal_move. simpl.
  destruct (decide (start = end_)) as [|Hne]; [reflexivity|].
  destruct (negb (in_bounds end_)); [reflexivity|].
  destruct (holds_color _ _); [reflexivity|].
  destruct start as [sf sr], end_ as [ef er]. simpl.
  assert (ef <> sf \/ er <> sr) as Hd.
  { destruct (decide (ef = sf)); [|auto]. destruct (decide (er = sr)); [|auto].
    subst. contradiction. }
  destruct (Z.abs (ef - sf) =? Z.abs (er - sr)) eqn:Hdiag; simpl.
  - replace ((ef - sf =? 0) || (er - sr =? 0)) with false by lia.
    destruct (_is_path_clear _ _ _ _) as [[|]|]; reflexivity.
  - destruct ((ef - sf =? 0) || (er - sr =? 0)); [|reflexivity].
    destruct (_is_path_clear _ _ _ _) as [[|]|]; reflexivity.
Qed.

(** ** What legality depends on *)

(** Two boards that agree on the squares the loop visits give the same run. *)
Lemma path_loop_agree (b b' : Board) (sf sr : Z) (count : nat) :
  forall (fuel : nat) (e cur : Square),
    ((0 < count)%nat -> sf <> 0 \/ sr <> 0) ->
    e = (cur.1 + Z.of_nat count * sf, cur.2 + Z.of_nat count * sr) ->
    (forall j : Z, 0 <= j < Z.of_nat count ->
       get_piece b (cur.1 + j * sf, cur.2 + j * sr)
       = get_piece b' (cur.1 + j * sf, cur.2 + j * sr)) ->
    path_loop fuel b sf sr e cur = path_loop fuel b' sf sr e cur.
Proof.
  induction count as [|count IH]; intros fuel e [cf cr] Hstep He Hag;
    (destruct fuel as [|fuel]; [reflexivity|]); simpl in *.
  - subst e. destruct (decide _) as [_|Hne]; [reflexivity|].
    exfalso. apply Hne. f_equal; lia.
  - destruct (decide _) as [Heq|_].
    + exfalso. subst e. inversion Heq as [[H1 H2]].
      assert (sf = 0) by nia. assert (sr = 0) by nia.
      destruct Hstep as [?|?]; [lia| |]; contradiction.
    + pose proof (Hag 0 ltac:(lia)) as H0.
      replace (cf + 0 * sf) with cf in H0 by lia.
      replace (cr + 0 * sr) with cr in H0 by lia.
      rewrite <- H0. destruct (get_piece b (cf, cr)); [reflexivity|].
      apply IH; [intros _; apply Hstep; lia | subst e; simpl; f_equal; lia |].
      intros j Hj. simpl. specialize (Hag (j + 1) ltac:(lia)).
      replace (cf + sf + j * sf) with (cf + (j + 1) * sf) by lia.
      replace (cr + sr + j * sr) with (cr + (j + 1) * sr) by lia.
      exact Hag.
Qed.

Lemma _is_path_clear_agree (fuel : nat) (b b' : Board) (start end_ : Square) :
  aligned start end_ ->
  (forall s, strictly_between start end_ s -> get_piece b s = get_piece b' s) ->
  _is_path_clear fuel b start end_ = _is_path_clear fuel b' start end_.
Proof.
  destruct start as [sf sr], end_ as [ef er].
  unfold aligned, strictly_between, toward, distance, file_delta, rank_delta,
    _is_path_clear.
  simpl. intros Hal Hag. rewrite !unit_step_sgn.
  apply (path_loop_agree b b' _ _
           (Z.to_nat (Z.max (Z.abs (ef - sf)) (Z.abs (er - sr)) - 1))); simpl.
  - lia.
  - f_equal; lia.
  - intros j Hj. specialize (Hag (sf + (j + 1) * Z.sgn (ef - sf),
                                  sr + (j + 1) * Z.sgn (er - sr))).
    replace (sf + Z.sgn (ef - sf) + j * Z.sgn (ef - sf))
      with (sf + (j + 1) * Z.sgn (ef - sf)) by lia.
    replace (sr + Z.sgn (er - sr) + j * Z.sgn (er - sr))
      with (sr + (j + 1) * Z.sgn (er - sr)) by lia.
    apply Hag. exists (j + 1). split; [lia | reflexivity].
Qed.

(** X9. [is_legal_move] looks at the destination and at the squares strictly
    between the two ends and at nothing else: two boards that agree there
    give the same answer, for every piece and with any fuel. *)
Theorem is_legal_move_local (fuel : nat) (b b' : Board) (piece : Piece) (start end_ : Square) :
  get_piece b end_ = get_piece b' end_ ->
  (forall s, strictly_between start end_ s -> get_piece b s = get_piece b' s) ->
  is_legal_move fuel b piece start end_ = is_legal_move fuel b' piece start end_.
Proof.
  intros Hend Hag. unfold is_legal_move. rewrite <- Hend.
  destruct (decide (start = end_)); [reflexivity|].
  destruct (negb (in_bounds end_)); [reflexivity|].
  destruct (holds_color _ _); [reflexivity|].
  destruct (kind piece).
  - reflexivity.
  - destruct (_ || _) eqn:E; [|reflexivity].
    apply _is_path_clear_agree; [|exact Hag].
    unfold aligned, file_delta, rank_delta. lia.
  - destruct (_ || _) eqn:E; [|reflexivity].
    apply _is_path_clear_agree; [|exact Hag].
    unfold aligned, file_delta, rank_delta. lia.
  - destruct (_ =? _) eqn:E; [|reflexivity].
    apply _is_path_clear_agree; [|exact Hag].
    unfold aligned, file_delta, rank_delta. lia.
  - reflexivity.
  - destruct (end_.1 - start.1 =? 0) eqn:Hf; [|reflexivity].
    destruct (end_.2 - start.2 =? _) eqn:H1; [reflexivity|].
    destruct (_ && _) eqn:H2; [|reflexivity].
    rewrite (Hag (start.1, start.2 + match color piece with WHITE => 1 | BLACK => -1 end));
      [reflexivity|].
    destruct start as [sf sr], end_ as [ef er].
    unfold strictly_between, toward, distance, file_delta, rank_delta. simpl in *.
    exists 1. destruct (color piece); split; try lia; f_equal; lia.
Qed.

Lemma is_legal_move_local_witness :
  is_legal_move 7 from_initial_position (mkPiece WHITE ROOK) (0, 2) (0, 5)
  = is_legal_move 7 (delete (3, 1) from_initial_position) (mkPiece WHITE ROOK) (0, 2) (0, 5).
Proof.
  apply is_legal_move_local.
  - unfold get_piece. rewrite lookup_delete_ne by discriminate. reflexivity.
  - intros s (k & Hk & ->). unfold get_piece.
    rewrite lookup_delete_ne; [reflexivity|].
    unfold toward, file_delta, rank_delta. simpl. intros [= H1 H2]. lia.
Defined.

(** ** Taking a move back *)

(** A loop that answers true has tested every square up to its target. *)
Lemma path_loop_true_fuel (b : Board) (sf sr : Z) (count : nat) :
  forall (fuel : nat) (e cur : Square),
    ((0 < count)%nat -> sf <> 0 \/ sr <> 0) ->
    e = (cur.1 + Z.of_nat count * sf, cur.2 + Z.of_nat count * sr) ->
    path_loop fuel b sf sr e cur = Some true ->
    (count < fuel)%nat.
Proof.
  induction count as [|count IH]; intros fuel e [cf cr] Hstep He H;
    (destruct fuel as [|fuel]; [discriminate|]); simpl in *; [lia|].
  destruct (decide _) as [Heq|_].
  - exfalso. subst e. inversion Heq as [[H1 H2]].
    assert (sf = 0) by nia. assert (sr = 0) by nia.
    destruct Hstep as [?|?]; [lia| |]; contradiction.
  - destruct (get_piece b (cf, cr)); [discriminate|].
    apply IH in H; [lia | intros _; apply Hstep; lia |].
    subst e. simpl. f_equal; lia.
Qed.

Lemma _is_path_clear_true (fuel : nat) (b : Board) (start end_ : Square) :
  aligned start end_ -> start <> end_ ->
  _is_path_clear fuel b start end_ = Some true ->
  (Z.to_nat (distance start end_) <= fuel)%nat
  /\ all_empty b (path start end_) = true.
Proof.
  intros Hal Hne H. pose proof (distance_pos _ _ Hne) as Hpos.
  assert (Hfuel : (Z.to_nat (distance start end_) <= fuel)%nat).
  { revert H Hal Hpos. destruct start as [sf sr], end_ as [ef er].
    unfold aligned, distance, file_delta, rank_delta, _is_path_clear. simpl.
    rewrite !unit_step_sgn. intros H Hal Hpos.
    apply (path_loop_true_fuel b _ _
             (Z.to_nat (Z.max (Z.abs (ef - sf)) (Z.abs (er - sr)) - 1))) in H.
    - lia.
    - simpl. lia.
    - simpl. f_equal; lia. }
  split; [exact Hfuel|].
  rewrite _is_path_clear_aligned in H by (trivial; lia). congruence.
Qed.

Lemma distance_sym (start end_ : Square) : distance end_ start = distance start end_.
Proof. unfold distance, file_delta, rank_delta. lia. Qed.

Lemma aligned_sym (start end_ : Square) : aligned start end_ -> aligned end_ start.
Proof. unfold aligned, file_delta, rank_delta. lia. Qed.

Lemma sliding_geometry_sym (k : PieceType) (start end_ : Square) :
  sliding_geometry k start end_ -> sliding_geometry k end_ start.
Proof. unfold sliding_geometry, file_delta, rank_delta. destruct k; lia. Qed.

(** On a line, what lies between two squares does not depend on the side one
    starts from, and is neither of the two. *)
Lemma strictly_between_sym (start end_ s : Square) :
  aligned start end_ ->
  strictly_between start end_ s -> strictly_between end_ start s /\ s <> end_.
Proof.
  destruct start as [sf sr], end_ as [ef er].
  unfold aligned, strictly_between, toward, distance, file_delta, rank_delta. simpl.
  intros Hal (k & Hk & ->). split.
  - exists (Z.max (Z.abs (ef - sf)) (Z.abs (er - sr)) - k).
    split; [lia | f_equal; nia].
  - intros [= H1 H2]. nia.
Qed.

(** A move of a sliding piece that is judged legal has the shape of the
    piece's moves and a loop that answered true. *)
Lemma is_legal_move_slider_true (fuel : nat) (b : Board) (piece : Piece) (start end_ : Square) :
  kind piece = BISHOP \/ kind piece = ROOK \/ kind piece = QUEEN ->
  is_legal_move fuel b piece start end_ = Some true ->
  sliding_geometry (kind piece) start end_
  /\ _is_path_clear fuel b start end_ = Some true.
Proof.
  intros Hk. unfold is_legal_move, sliding_geometry, file_delta, rank_delta.
  destruct (decide (start = end_)); [discriminate|].
  destruct (negb (in_bounds end_)); [discriminate|].
  destruct (holds_color _ _); [discriminate|].
  destruct Hk as [-> | [-> | ->]];
    match goal with |- (if ?c then _ else _) = _ -> _ => destruct c eqn:E end;
    try discriminate; intros H; (split; [lia | exact H]).
Qed.

(** The move back is legal on the board the move has left. *)
Lemma is_legal_move_reverse (fuel : nat) (b : Board) (piece : Piece) (start end_ : Square) :
  kind piece <> PAWN ->
  in_bounds start = true ->
  is_legal_move fuel b piece start end_ = Some true ->
  is_legal_move fuel (<[end_ := piece]> (delete start b)) piece end_ start = Some true.
Proof.
  intros Hk Hin H.
  pose proof (is_legal_move_distinct _ _ _ _ _ H) as Hne.
  assert (Hstart : get_piece (<[end_ := piece]> (delete start b)) start = None).
  { unfold get_piece. rewrite lookup_insert_ne by congruence. apply lookup_delete_eq. }
  destruct (kind piece) eqn:Ek; try contradiction.
  2,3,4: assert (Hs : kind piece = BISHOP \/ kind piece = ROOK \/ kind piece = QUEEN)
           by (rewrite Ek; tauto);
         destruct (is_legal_move_slider_true _ _ _ _ _ Hs H) as [Hgeo Hclear];
         pose proof (sliding_geometry_aligned _ _ _ Hgeo) as Hal;
         destruct (_is_path_clear_true _ _ _ _ Hal Hne Hclear) as [Hfuel Hempty];
         rewrite is_legal_move_sliding
           by (try (apply sliding_geometry_sym; exact Hgeo); rewrite distance_sym; exact Hfuel);
         rewrite Hstart, Hin; simpl;
         rewrite (bool_decide_eq_true_2 (end_ <> start)) by congruence; simpl;
         f_equal; unfold all_empty in *; rewrite forallb_forall in *;
         intros s Hs'; apply path_strictly_between in Hs';
         apply strictly_between_sym in Hs' as [Hs' _]; [|apply aligned_sym; exact Hal];
         destruct (strictly_between_sym _ _ _ Hal Hs') as [_ Hns];
         apply path_strictly_between, Hempty in Hs';
         unfold get_piece in *;
         rewrite lookup_insert_ne by congruence;
         rewrite lookup_delete; destruct (decide (start = s)); [reflexivity | exact Hs'].
  all: revert H; unfold is_legal_move; rewrite Hstart, Hin, Ek; simpl;
    destruct (decide (start = end_)); [contradiction|];
    destruct (decide (end_ = start)); [congruence|];
    destruct (negb (in_bounds end_)); [discriminate|];
    destruct (holds_color _ _); [discriminate|];
    replace (start.1 - end_.1) with (- (end_.1 - start.1)) by lia;
    replace (start.2 - end_.2) with (- (end_.2 - start.2)) by lia;
    rewrite !Z.abs_opp; trivial.
Qed.

(** X10. A move of a piece other than a pawn from a square of the board onto
    an empty square can be taken back: after [move_piece(start, end_)] has
    returned, [move_piece(end_, start)] returns too and the board is again
    what it was before the two calls. *)
Theorem move_piece_undo (fuel : nat) (b : Board) (start end_ : Square)
    (promotion promotion' : option PieceType) (piece : Piece) (b' : Board) :
  get_piece b start = Some piece ->
  kind piece <> PAWN ->
  in_bounds start = true ->
  get_piece b end_ = None ->
  move_piece fuel b start end_ promotion = Some (b', Ok tt) ->
  move_piece fuel b' end_ start promotion' = Some (b, Ok tt).
Proof.
  intros Hp Hk Hin Hend H.
  apply move_piece_ok_inv in H as (piece' & Hp' & Hl & ->).
  assert (piece' = piece) as -> by congruence.
  pose proof (is_legal_move_distinct _ _ _ _ _ Hl) as Hne.
  assert (Hland : landed piece end_ promotion = piece).
  { unfold landed. destruct (kind piece); try reflexivity. contradiction. }
  rewrite Hland. unfold move_piece.
  assert (Hget : get_piece (<[end_ := piece]> (delete start b)) end_ = Some piece)
    by apply lookup_insert_eq.
  rewrite Hget.
  rewrite (is_legal_move_reverse _ _ _ _ _ Hk Hin Hl).
  assert (Hstart : get_piece (<[end_ := piece]> (delete start b)) start = None).
  { unfold get_piece. rewrite lookup_insert_ne by congruence. apply lookup_delete_eq. }
  rewrite Hstart. simpl.
  rewrite (bool_decide_eq_false_2 (kind piece = PAWN)) by exact Hk. simpl.
  do 2 f_equal. f_equal. apply map_eq. intros s. unfold set_piece, get_piece in *.
  rewrite lookup_delete. destruct (decide (end_ = s)) as [<- | ?]; [congruence|].
  rewrite lookup_insert. destruct (decide (start = s)) as [<- | ?]; [congruence|].
  rewrite lookup_insert_ne by assumption. apply lookup_delete_ne. assumption.
Qed.

Lemma move_piece_undo_witness :
  exists b',
    move_piece 0 from_initial_position (6, 0) (5, 2) None = Some (b', Ok tt)
    /\ move_piece 0 b' (5, 2) (6, 0) None = Some (from_initial_position, Ok tt).
Proof.
  destruct (returns_some (move_piece 0 from_initial_position (6, 0) (5, 2) None) (Ok tt))
    as [b' E]; [vm_compute; reflexivity|].
  exists b'. split; [exact E|].
  apply (move_piece_undo 0 from_initial_position (6, 0) (5, 2) None None
           (mkPiece WHITE KNIGHT) b'); try exact E.
  - vm_compute. reflexivity.
  - discriminate.
  - reflexivity.
  - vm_compute. reflexivity.
Defined.

(** ** The game never hangs *)

Lemma parse_square_ok (name : string) (s : Square) :
  parse_square name = Ok s -> is_square_text name /\ in_bounds s = true.
Proof.
  unfold parse_square. destruct name as [|c0 [|c1 [|c2 n]]]; try discriminate.
  rewrite char_in_FILES, char_in_ranks.
  destruct (_ || _) eqn:E; [discriminate|]. intros [= <-].
  rewrite orb_false_iff, !negb_false_iff, !andb_true_iff, !N.leb_le in E.
  assert (Hf : is_file_char c0) by (unfold is_file_char; lia).
  assert (Hr : is_rank_char c1) by (unfold is_rank_char; lia).
  split; [exists c0, c1; auto|].
  apply file_char_cases in Hf. apply rank_char_cases in Hr. simpl in Hf, Hr.
  repeat (destruct Hf as [<- | Hf]); try contradiction;
    repeat (destruct Hr as [<- | Hr]); try contradiction; reflexivity.
Qed.

Lemma distance_on_board (start end_ : Square) :
  in_bounds start = true -> in_bounds end_ = true -> distance start end_ <= 7.
Proof.
  destruct start as [sf sr], end_ as [ef er]. rewrite !in_bounds_iff.
  unfold distance, file_delta, rank_delta. simpl. lia.
Qed.

Lemma is_legal_move_enough (fuel fuel' : nat) (b : Board) (piece : Piece) (start end_ : Square) :
  (Z.to_nat (distance start end_) <= fuel)%nat -> (fuel <= fuel')%nat ->
  is_legal_move fuel' b piece start end_ = is_legal_move fuel b piece start end_
  /\ is_Some (is_legal_move fuel b piece start end_).
Proof.
  intros Hd Hle. destruct (is_legal_move_total fuel b piece start end_ Hd) as [r Hr].
  rewrite Hr. split; [|eauto]. eapply is_legal_move_mono; eauto.
Qed.

Lemma move_piece_enough (fuel : nat) (b : Board) (start end_ : Square)
    (promotion : option PieceType) :
  in_bounds start = true -> in_bounds end_ = true -> (7 <= fuel)%nat ->
  move_piece fuel b start end_ promotion = move_piece 7 b start end_ promotion
  /\ is_Some (move_piece 7 b start end_ promotion).
Proof.
  intros Hs He Hfuel. pose proof (distance_on_board _ _ Hs He) as Hd.
  unfold move_piece. destruct (get_piece b start) as [piece|]; [|eauto].
  destruct (is_legal_move_enough 7 fuel b piece start end_) as [-> [r Hr]]; [lia..|].
  rewrite Hr. split; [reflexivity|].
  destruct r; [|eauto].
  repeat match goal with |- is_Some (if ?c then _ else _) => destruct c end; eauto.
Qed.

Lemma apply_move_enough (fuel : nat) (g : ChessGame) (m : Move) :
  (7 <= fuel)%nat ->
  apply_move fuel g m = apply_move 7 g m /\ is_Some (apply_move 7 g m).
Proof.
  intros Hfuel. unfold apply_move.
  destruct (parse_square (start m)) as [s|] eqn:Hs; [|eauto].
  destruct (parse_square (end_ m)) as [e|] eqn:He; [|eauto].
  destruct (get_piece (board g) s); [|eauto].
  destruct (negb _); [eauto|].
  apply parse_square_ok in Hs as [_ Hs]. apply parse_square_ok in He as [_ He].
  destruct (move_piece_enough fuel (board g) s e (promotion m) Hs He Hfuel)
    as [-> [[b' [[]|e']] ->]]; eauto.
Qed.

Lemma apply_sanless_enough (fuel : nat) (g : ChessGame) (notation : string) :
  (7 <= fuel)%nat ->
  apply_sanless fuel g notation = apply_sanless 7 g notation
  /\ is_Some (apply_sanless 7 g notation).
Proof.
  intros Hfuel. unfold apply_sanless.
  destruct (negb _); [eauto|].
  match goal with
  | |- context [match ?parsed with Ok _ => _ | Err _ => _ end] =>
      destruct parsed as [[promo text]|]
  end; [|eauto].
  apply apply_move_enough. exact Hfuel.
Qed.

(** X11. The game never hangs: every square a text can name is on the board,
    so seven rounds of the path loop are always enough. [apply_move] and
    [load_moves] return or raise with seven units of fuel, and with any more
    they do exactly the same. *)
Theorem game_calls_terminate (fuel : nat) (g : ChessGame) :
  (7 <= fuel)%nat ->
  (forall m : Move,
     apply_move fuel g m = apply_move 7 g m /\ is_Some (apply_move 7 g m))
  /\ (forall moves : list string,
        load_moves fuel g moves = load_moves 7 g moves
        /\ is_Some (load_moves 7 g moves)).
Proof.
  intros Hfuel. split; [intros m; apply apply_move_enough; exact Hfuel|].
  intros moves. revert g. induction moves as [|n moves IH]; intros g; simpl; [eauto|].
  destruct (apply_sanless_enough fuel g n Hfuel) as [-> [[g' [[]|e]] ->]]; eauto.
Qed.

Lemma game_calls_terminate_witness :
  observe_game [] (load_moves 64 new_game ["a2a4"; "a7a5"; "a1a3"; "a8a6"; "a3h3"]%string)
  = Some (Ok tt, BLACK, 5%nat, []).
Proof.
  destruct (game_calls_terminate 64 new_game ltac:(lia)) as [_ H].
  destruct (H ["a2a4"; "a7a5"; "a1a3"; "a8a6"; "a3h3"]%string) as [-> _].
  vm_compute. reflexivity.
Defined.

(** The seven units are needed: a rook crossing the whole board. *)
Example seven_units_needed :
  let b : Board := {[ (0, 0) := mkPiece WHITE ROOK ]} in
  observe [] (move_piece 6 b (0, 0) (7, 0) None) = None
  /\ observe [] (move_piece 7 b (0, 0) (7, 0) None) = Some (Ok tt, []).
Proof. split; vm_compute; reflexivity. Qed.

(** ** What a coordinate text can do to a game *)

Lemma naming_error_on_board (start end_ : Square) :
  in_bounds start = true -> in_bounds end_ = true ->
  naming_error [start; end_] = None.
Proof.
  intros Hs He. simpl.
  destruct (square_name_in_bounds _ Hs) as [n ->].
  destruct (square_name_in_bounds _ He) as [n' ->]. reflexivity.
Qed.

Lemma apply_move_errors (fuel : nat) (g : ChessGame) (m : Move) (g' : ChessGame) (e : Error) :
  apply_move fuel g m = Some (g', Err e) ->
  e = InvalidNotation \/ e = NoPieceOnSquare \/ e = WrongTurn
  \/ e = IllegalMove \/ e = InvalidPromotion.
Proof.
  unfold apply_move.
  destruct (parse_square (start m)) as [s|e0] eqn:Hs;
    [|apply parse_square_err in Hs as ->; intros [= _ <-]; tauto].
  destruct (parse_square (end_ m)) as [e1|e0] eqn:He;
    [|apply parse_square_err in He as ->; intros [= _ <-]; tauto].
  destruct (get_piece (board g) s) as [piece|] eqn:Hp; [|intros [= _ <-]; tauto].
  destruct (negb _); [intros [= _ <-]; tauto|].
  apply parse_square_ok in Hs as [_ Hs]. apply parse_square_ok in He as [_ He].
  unfold move_piece, raise_naming. rewrite Hp.
  destruct (is_legal_move fuel (board g) piece s e1) as [[|]|] eqn:Hl;
    [| |discriminate].
  - rewrite (is_legal_move_not_own _ _ _ _ _ Hl).
    destruct (_ && _); [|discriminate].
    destruct (_ || _); [|discriminate]. intros [= _ <-]. tauto.
  - rewrite (naming_error_on_board _ _ Hs He). intros [= _ <-]. tauto.
Qed.

(** X12. A text handed to [apply_sanless] either is applied or changes
    nothing: when the call raises, board, turn and history are what they
    were, and the error is one of six: unsupported notation or promotion,
    invalid square name, no piece on the square, wrong turn, illegal move.
    The errors of naming a square off the board, of an empty start inside
    [move_piece], of capturing one's own piece and of promoting to a pawn or
    a king cannot come out of it. *)
Theorem apply_sanless_failure (fuel : nat) (g : ChessGame) (notation : string)
    (g' : ChessGame) (e : Error) :
  apply_sanless fuel g notation = Some (g', Err e) ->
  g' = g
  /\ (e = UnsupportedNotation \/ e = UnsupportedPromotion \/ e = InvalidNotation
      \/ e = NoPieceOnSquare \/ e = WrongTurn \/ e = IllegalMove).
Proof.
  intros H. split; [eapply apply_sanless_err_inv; exact H|].
  revert H. unfold apply_sanless.
  destruct (negb _); [intros [= _ <-]; tauto|].
  destruct (_ =? 5)%nat.
  - destruct (String.get 4 _) as [c|]; [|intros [= _ <-]; tauto].
    destruct (_promotion_from_char c) as [k|e0] eqn:Hk.
    + intros H. pose proof (apply_move_err_inv _ _ _ _ _ H) as (_ & _ & _ & Hp).
      apply apply_move_errors in H. simpl in Hp.
      apply _promotion_from_char_kinds in Hk.
      destruct H as [?|[?|[?|[?|H]]]]; try tauto.
      destruct (Hp H) as [[= ->] | [= ->]]; tauto.
    + revert Hk. unfold _promotion_from_char.
      repeat (destruct (Ascii.eqb c _); [discriminate|]).
      intros [= <-] [= _ <-]. tauto.
  - intros H. pose proof (apply_move_err_inv _ _ _ _ _ H) as (_ & _ & _ & Hp).
    apply apply_move_errors in H. simpl in Hp.
    destruct H as [?|[?|[?|[?|H]]]]; try tauto.
    destruct (Hp H); discriminate.
Qed.

Lemma returns_err {S : Type} (c : option (S * res unit)) (e : Error) :
  snd <$> c = Some (Err e) -> exists s, c = Some (s, Err e).
Proof. apply returns_some. Qed.

Lemma apply_sanless_failure_witness :
  apply_sanless 7 new_game "a1a3" = Some (new_game, Err IllegalMove).
Proof.
  destruct (returns_err (apply_sanless 7 new_game "a1a3") IllegalMove) as [g' E];
    [vm_compute; reflexivity|].
  destruct (apply_sanless_failure _ _ _ _ _ E) as [-> _]. exact E.
Defined.

(** ** Texts: stripping and lower-casing *)

Lemma is_space_lower_char (c : ascii) : is_space (lower_char c) = is_space c.
Proof. destruct c as [[] [] [] [] [] [] [] []]; vm_compute; reflexivity. Qed.

Lemma lower_char_idem (c : ascii) : lower_char (lower_char c) = lower_char c.
Proof. destruct c as [[] [] [] [] [] [] [] []]; vm_compute; reflexivity. Qed.

Lemma lower_idem (s : string) : lower (lower s) = lower s.
Proof.
  induction s as [|c s IH]; simpl; [reflexivity|].
  rewrite lower_char_idem, IH. reflexivity.
Qed.

Lemma lstrip_lower (s : string) : lstrip (lower s) = lower (lstrip s).
Proof.
  induction s as [|c s IH]; simpl; [reflexivity|].
  rewrite is_space_lower_char. destruct (is_space c); [exact IH | reflexivity].
Qed.

Lemma rstrip_lower (s : string) : rstrip (lower s) = lower (rstrip s).
Proof.
  induction s as [|c s IH]; simpl; [reflexivity|].
  rewrite IH, is_space_lower_char.
  destruct (rstrip s); simpl; [destruct (is_space c)|]; reflexivity.
Qed.

Lemma rstrip_idem (s : string) : rstrip (rstrip s) = rstrip s.
Proof.
  induction s as [|c s IH]; simpl; [reflexivity|].
  destruct (rstrip s) as [|d t] eqn:E.
  - destruct (is_space c) eqn:Hc; simpl; [reflexivity|]. rewrite Hc. reflexivity.
  - simpl in *. rewrite IH. reflexivity.
Qed.

(** A text that does not begin with white space. *)
Lemma lstrip_fixed (s : string) :
  match s with String c _ => is_space c = false | EmptyString => True end ->
  lstrip s = s.
Proof. destruct s as [|c s]; simpl; [reflexivity|]. intros ->. reflexivity. Qed.

Lemma lstrip_head (s : string) :
  match lstrip s with String c _ => is_space c = false | EmptyString => True end.
Proof.
  induction s as [|c s IH]; simpl; [exact I|].
  destruct (is_space c) eqn:Hc; [exact IH | exact Hc].
Qed.

Lemma rstrip_head (s : string) :
  match s with String c _ => is_space c = false | EmptyString => True end ->
  match rstrip s with String c _ => is_space c = false | EmptyString => True end.
Proof.
  destruct s as [|c s]; simpl; [trivial|]. intros Hc.
  destruct (rstrip s); [rewrite Hc|]; exact Hc.
Qed.

Lemma strip_idem (s : string) : strip (strip s) = strip s.
Proof.
  unfold strip.
  rewrite (lstrip_fixed (rstrip (lstrip s))) by apply rstrip_head, lstrip_head.
  apply rstrip_idem.
Qed.

Lemma normalize_idem (s : string) : lower (strip (lower (strip s))) = lower (strip s).
Proof.
  unfold strip at 1. rewrite lstrip_lower, rstrip_lower, lower_idem.
  fold (strip (strip s)). rewrite strip_idem. reflexivity.
Qed.

(** X13. [apply_sanless] reads a text up to surrounding white space and the
    case of its letters: the text and its stripped, lower-cased form have the
    same effect and the same outcome. *)
Theorem apply_sanless_normalizes (fuel : nat) (g : ChessGame) (notation : string) :
  apply_sanless fuel g notation = apply_sanless fuel g (lower (strip notation)).
Proof. unfold apply_sanless. rewrite normalize_idem. reflexivity. Qed.

Example apply_sanless_upper_case_padded :
  observe_game [(4, 3)] (apply_sanless 0 new_game "  E2E4 ")
  = Some (Ok tt, BLACK, 1%nat, [Some (mkPiece WHITE PAWN)]).
Proof. vm_compute. reflexivity. Qed.

(** ** Texts and recorded moves *)

Lemma apply_move_ok_parse (fuel : nat) (g : ChessGame) (m : Move) (g' : ChessGame) (u : unit) :
  apply_move fuel g m = Some (g', Ok u) ->
  is_square_text (start m) /\ is_square_text (end_ m).
Proof.
  unfold apply_move.
  destruct (parse_square (start m)) as [s|] eqn:Hs; [|discriminate].
  destruct (parse_square (end_ m)) as [e|] eqn:He; [|discriminate].
  intros _. apply parse_square_ok in Hs as [Hs _]. apply parse_square_ok in He as [He _].
  split; assumption.
Qed.

Lemma _promotion_from_char_text (char : ascii) (k : PieceType) :
  _promotion_from_char char = Ok k ->
  lower (value k) = String char EmptyString /\ promotable (Some k).
Proof.
  unfold _promotion_from_char, promotable.
  repeat match goal with
         | |- context [Ascii.eqb char ?x] =>
             destruct (Ascii.eqb_spec char x) as [-> | _];
             [intros [= <-]; split; [reflexivity | auto 6]|]
         end.
  discriminate.
Qed.

(** A text that is applied is recorded as the move that reads as the text,
    stripped and lower-cased, and it is that move that [apply_move] gets. *)
Lemma apply_sanless_ok_inv (fuel : nat) (g : ChessGame) (notation : string)
    (g' : ChessGame) (u : unit) :
  apply_sanless fuel g notation = Some (g', Ok u) ->
  exists m, well_formed_move m
            /\ Move_str m = lower (strip notation)
            /\ apply_move fuel g m = Some (g', Ok u).
Proof.
  unfold apply_sanless. generalize (lower (strip notation)). intros t.
  destruct t as [|c0 [|c1 [|c2 [|c3 [|c4 [|c5 t]]]]]]; simpl; try discriminate.
  - intros H. eexists. split; [|split; [|exact H]]; [|reflexivity].
    apply apply_move_ok_parse in H as (Hs & He).
    split; [exact Hs|]. split; [exact He|]. left. reflexivity.
  - destruct (_promotion_from_char c4) as [k|] eqn:Hk; [|discriminate].
    apply _promotion_from_char_text in Hk as [Htext Hpromo].
    intros H. eexists. split; [|split; [|exact H]].
    + apply apply_move_ok_parse in H as (Hs & He).
      split; [exact Hs|]. split; [exact He|]. exact Hpromo.
    + unfold Move_str. simpl. rewrite Htext. reflexivity.
Qed.

(** X14. A text that [apply_sanless] applies adds one move to the history and
    passes the turn. The move recorded has two well-formed square names and
    asks for no promotion or for a queen, rook, bishop or knight, and its
    text ([Move.__str__]) is the text given, stripped and lower-cased. *)
Theorem apply_sanless_records (fuel : nat) (g : ChessGame) (notation : string)
    (g' : ChessGame) :
  apply_sanless fuel g notation = Some (g', Ok tt) ->
  exists m, well_formed_move m
            /\ Move_str m = lower (strip notation)
            /\ history g' = history g ++ [m]
            /\ turn g' = opponent (turn g).
Proof.
  intros H. apply apply_sanless_ok_inv in H as (m & Hwf & Hstr & H).
  apply apply_move_ok_inv in H as [Ht Hh]. eauto.
Qed.

Lemma apply_sanless_records_witness :
  exists g' m,
    apply_sanless 0 new_game " G1F3 " = Some (g', Ok tt)
    /\ Move_str m = "g1f3"%string
    /\ history g' = [m] /\ turn g' = BLACK.
Proof.
  destruct (returns_some (apply_sanless 0 new_game " G1F3 ") (Ok tt)) as [g' E];
    [vm_compute; reflexivity|].
  destruct (apply_sanless_records _ _ _ _ E) as (m & _ & Hs & Hh & Ht).
  exists g', m. split; [exact E|]. split; [exact Hs|]. split; assumption.
Defined.

Lemma square_chars_clean (c : ascii) :
  is_file_char c \/ is_rank_char c -> is_space c = false /\ lower_char c = c.
Proof.
  intros [H | H]; [apply file_char_cases in H | apply rank_char_cases in H];
    simpl in H; repeat (destruct H as [<- | H]); try contradiction;
    split; reflexivity.
Qed.

(** A text made of characters that are neither white space nor changed by
    lower-casing is its own normal form. *)
Lemma clean_text_fixed (s : string) :
  (forall c, In c (list_ascii_of_string s) -> is_space c = false /\ lower_char c = c) ->
  lower (strip s) = s.
Proof.
  intros H.
  assert (Hl : lstrip s = s).
  { apply lstrip_fixed. destruct s as [|c s]; [exact I|]. apply H. left. reflexivity. }
  assert (Hr : rstrip s = s).
  { clear Hl. induction s as [|c s IH]; simpl; [reflexivity|].
    rewrite IH by (intros d Hd; apply H; right; exact Hd).
    destruct s; [|reflexivity].
    destruct (H c (or_introl eq_refl)) as [-> _]. reflexivity. }
  unfold strip. rewrite Hl, Hr. clear Hl Hr.
  induction s as [|c s IH]; simpl; [reflexivity|].
  destruct (H c (or_introl eq_refl)) as [_ ->].
  rewrite IH by (intros d Hd; apply H; right; exact Hd). reflexivity.
Qed.

(** X15. The text of a move reads back as the move: for a move with two
    well-formed square names and no promotion or one to a queen, rook, bishop
    or knight, [apply_sanless] on [str(move)] does what [apply_move] does on
    the move, history entry included. *)
Theorem apply_sanless_Move_str (fuel : nat) (g : ChessGame) (m : Move) :
  well_formed_move m ->
  apply_sanless fuel g (Move_str m) = apply_move fuel g m.
Proof.
  destruct m as [st en pr].
  intros ((c0 & c1 & Hst & H0 & H1) & (c2 & c3 & Hen & H2 & H3) & Hpr).
  simpl in *. subst st en.
  pose proof (square_chars_clean c0 (or_introl H0)) as C0.
  pose proof (square_chars_clean c1 (or_intror H1)) as C1.
  pose proof (square_chars_clean c2 (or_introl H2)) as C2.
  pose proof (square_chars_clean c3 (or_intror H3)) as C3.
  unfold apply_sanless.
  rewrite clean_text_fixed.
  - destruct Hpr as [-> | [-> | [-> | [-> | ->]]]]; reflexivity.
  - unfold Move_str. simpl.
    destruct Hpr as [-> | [-> | [-> | [-> | ->]]]]; simpl;
      intros c Hc; repeat (destruct Hc as [<- | Hc]; [assumption || (split; reflexivity)|]);
      contradiction.
Qed.

Lemma apply_sanless_Move_str_witness :
  apply_sanless 0 new_game (Move_str (mkMove "e2" "e4" None))
  = apply_move 0 new_game (mkMove "e2" "e4" None).
Proof.
  apply apply_sanless_Move_str.
  split; [|split].
  - exists "e"%char, "2"%char. split; [reflexivity|]. vm_compute.
    split; split; discriminate.
  - exists "e"%char, "4"%char. split; [reflexivity|]. vm_compute.
    split; split; discriminate.
  - left. reflexivity.
Defined.

(** ** Games that were loaded *)

Lemma iter_opponent_succ (n : nat) (c : Color) :
  Nat.iter n opponent (opponent c) = Nat.iter (S n) opponent c.
Proof. induction n as [|n IH]; simpl; [reflexivity|]. rewrite IH. reflexivity. Qed.

(** X16. After [load_moves], whether it returned or raised, the history has
    grown by the moves of the texts that were applied, in order: their texts
    ([Move.__str__]) are the first texts of the batch, stripped and
    lower-cased; the turn has passed once per move; all texts were applied if
    the call returned and fewer than all if it raised. *)
Theorem load_moves_history (fuel : nat) (moves : list string) :
  forall (g g' : ChessGame) (r : res unit),
    load_moves fuel g moves = Some (g', r) ->
    exists ms : list Move,
      history g' = history g ++ ms
      /\ Forall well_formed_move ms
      /\ map Move_str ms = map (fun n => lower (strip n)) (take (length ms) moves)
      /\ turn g' = Nat.iter (length ms) opponent (turn g)
      /\ match r with
         | Ok _ => length ms = length moves
         | Err _ => (length ms < length moves)%nat
         end.
Proof.
  induction moves as [|n moves IH]; simpl; intros g g' r H.
  - injection H as <- <-. exists []. rewrite app_nil_r. repeat split; constructor.
  - destruct (apply_sanless fuel g n) as [[g1 [[]|e]]|] eqn:Hn; [| |discriminate].
    + apply apply_sanless_ok_inv in Hn as (m & Hwf & Hstr & Hm).
      apply apply_move_ok_inv in Hm as [Ht Hh].
      apply IH in H as (ms & Hh' & Hwf' & Hstr' & Ht' & Hr).
      exists (m :: ms). simpl. rewrite Hh', Hh, <- app_assoc. split; [reflexivity|].
      split; [constructor; assumption|]. split; [rewrite Hstr, Hstr'; reflexivity|].
      split.
      * rewrite Ht', Ht. apply (iter_opponent_succ (length ms)).
      * destruct r; lia.
    + injection H as <- <-. apply apply_sanless_err_inv in Hn as ->.
      exists []. rewrite app_nil_r. simpl. repeat split; try lia; constructor.
Qed.

Lemma load_moves_history_witness :
  exists g' ms,
    load_moves 0 new_game ["e2e4"; " E7E5"; "e4e5"; "g1f3"]%string
    = Some (g', Err IllegalMove)
    /\ history g' = ms
    /\ map Move_str ms = ["e2e4"; "e7e5"]%string
    /\ turn g' = WHITE.
Proof.
  destruct (returns_some
              (load_moves 0 new_game ["e2e4"; " E7E5"; "e4e5"; "g1f3"]%string)
              (Err IllegalMove)) as [g' E]; [vm_compute; reflexivity|].
  destruct (load_moves_history _ _ _ _ _ E) as (ms & Hh & _ & Hs & Ht & Hlen).
  exists g', ms. split; [exact E|]. split; [exact Hh|].
  assert (Hl : length ms = 2%nat).
  { assert (Hc : length (history g') = 2%nat).
    { assert (Hobs : observe_game []
                (load_moves 0 new_game ["e2e4"; " E7E5"; "e4e5"; "g1f3"]%string)
              = Some (Err IllegalMove, WHITE, 2%nat, [])) by (vm_compute; reflexivity).
      rewrite E in Hobs. simpl in Hobs. congruence. }
    rewrite Hh in Hc. exact Hc. }
  rewrite Hl in Hs, Ht. split; [exact Hs | exact Ht].
Defined.

Lemma apply_move_ok_board (fuel : nat) (g : ChessGame) (m : Move) (g' : ChessGame) (u : unit) :
  apply_move fuel g m = Some (g', Ok u) ->
  exists s e, move_piece fuel (board g) s e (promotion m) = Some (board g', Ok tt).
Proof.
  unfold apply_move.
  destruct (parse_square (start m)) as [s|]; [|discriminate].
  destruct (parse_square (end_ m)) as [e|]; [|discriminate].
  destruct (get_piece (board g) s); [|discriminate].
  destruct (negb _); [discriminate|].
  destruct (move_piece fuel (board g) s e (promotion m)) as [[b' [[]|e']]|] eqn:Hmv;
    [|discriminate..].
  intros H. injection H as <-. exists s, e. exact Hmv.
Qed.

(** What every applied text keeps, [load_moves] keeps, since a text that
    fails changes nothing. *)
Lemma load_moves_game_keeps (P : ChessGame -> Prop) (fuel : nat) :
  (forall g n g', P g -> apply_sanless fuel g n = Some (g', Ok tt) -> P g') ->
  forall (moves : list string) (g g' : ChessGame) (r : res unit),
    P g -> load_moves fuel g moves = Some (g', r) -> P g'.
Proof.
  intros Hstep moves. induction moves as [|n moves IH]; simpl; intros g g' r Hg H.
  - injection H as <- _. exact Hg.
  - destruct (apply_sanless fuel g n) as [[g1 [[]|e]]|] eqn:Hn; [| |discriminate].
    + eapply IH; [|exact H]. eapply Hstep; eauto.
    + injection H as <- _. apply apply_sanless_err_inv in Hn as ->. exact Hg.
Qed.

Lemma move_piece_size (fuel : nat) (b : Board) (start end_ : Square)
    (promotion : option PieceType) (b' : Board) (r : res unit) :
  move_piece fuel b start end_ promotion = Some (b', r) -> (size b' <= size b)%nat.
Proof.
  destruct r as [[]|e]; intros H.
  - apply move_piece_ok_inv in H as (piece & Hp & Hl & ->).
    pose proof (is_legal_move_distinct _ _ _ _ _ Hl) as Hne. unfold get_piece in Hp.
    rewrite (size_insert_delete _ _ _ _ _ Hp Hne). destruct (b !! end_); lia.
  - apply move_piece_err_inv in H as (_ & Hb & Hp).
    destruct e; try (rewrite (Hb ltac:(discriminate)); lia).
    destruct (Hp eq_refl) as (_ & piece & Hs & ->).
    rewrite map_size_delete, map_size_insert. unfold get_piece in Hs.
    rewrite lookup_insert. destruct (decide (end_ = start)).
    + destruct (b !! end_); simpl; lia.
    + rewrite Hs. destruct (b !! end_); simpl; lia.
Qed.

(** X17. Every game that [load_moves] leaves when it starts from a fresh
    game, whether it returned or raised, has WHITE to move after an even
    number of recorded moves and BLACK after an odd number, all pieces on the
    64 squares, at most 32 of them, and only well-formed moves in its
    history. *)
Theorem loaded_game_invariants (fuel : nat) (moves : list string)
    (g : ChessGame) (r : res unit) :
  load_moves fuel new_game moves = Some (g, r) ->
  turn g = (if Nat.even (length (history g)) then WHITE else BLACK)
  /\ on_board (board g)
  /\ (size (board g) <= 32)%nat
  /\ Forall well_formed_move (history g).
Proof.
  apply (load_moves_game_keeps
           (fun g => turn g = (if Nat.even (length (history g)) then WHITE else BLACK)
                     /\ on_board (board g)
                     /\ (size (board g) <= 32)%nat
                     /\ Forall well_formed_move (history g))).
  - intros g0 n g' (Ht & Hb & Hs & Hw) Hn.
    apply apply_sanless_ok_inv in Hn as (m & Hwf & _ & Hm).
    pose proof (apply_move_ok_inv _ _ _ _ _ Hm) as [Ht' Hh'].
    apply apply_move_ok_board in Hm as (s & e & Hmv).
    split; [|split; [|split]].
    + rewrite Ht', Hh', Ht, length_app, Nat.add_1_r, Nat.even_succ, <- Nat.negb_even.
      destruct (Nat.even (length (history g0))); reflexivity.
    + apply move_piece_shape in Hmv as [-> | (q & Hin & _ & ->)]; [exact Hb|].
      apply on_board_insert_delete; assumption.
    + apply move_piece_size in Hmv. lia.
    + rewrite Hh'. apply Forall_app. split; [exact Hw|]. constructor; [exact Hwf|constructor].
  - split; [reflexivity|]. split; [apply reset_on_board|].
    split; [vm_compute; lia | constructor].
Qed.

Lemma loaded_game_invariants_witness :
  exists g,
    load_moves 0 new_game ["e2e4"; "d7d5"; "e4d5"]%string = Some (g, Ok tt)
    /\ turn g = BLACK /\ (size (board g) <= 32)%nat.
Proof.
  destruct (returns_some (load_moves 0 new_game ["e2e4"; "d7d5"; "e4d5"]%string) (Ok tt))
    as [g E]; [vm_compute; reflexivity|].
  destruct (loaded_game_invariants _ _ _ _ E) as (Ht & _ & Hs & _).
  exists g. split; [exact E|]. split; [|exact Hs].
  assert (Hobs : observe_game [] (load_moves 0 new_game ["e2e4"; "d7d5"; "e4d5"]%string)
                 = Some (Ok tt, BLACK, 3%nat, [])) by (vm_compute; reflexivity).
  rewrite E in Hobs. simpl in Hobs.
  assert (Hl : length (history g) = 3%nat) by congruence.
  rewrite Hl in Ht. exact Ht.
Defined.

(** ** The matrix view *)

Lemma py_index_lt (len : nat) (i : Z) (k : nat) :
  py_index len i = Some k -> (k < len)%nat.
Proof.
  unfold py_index.
  destruct ((0 <=? i) && (i <? Z.of_nat len)) eqn:E1; [intros [= <-]; lia|].
  destruct ((- Z.of_nat len <=? i) && (i <? 0)) eqn:E2;
    [intros [= <-]; lia | discriminate].
Qed.

Lemma matrix_cell_insert (m : list (list (option Piece))) (row : list (option Piece))
    (r0 f0 r f : nat) (x : option Piece) :
  m !! r0 = Some row -> (f0 < length row)%nat ->
  matrix_cell (<[r0 := <[f0 := x]> row]> m) r f
  = if decide ((r, f) = (r0, f0)) then Some x else matrix_cell m r f.
Proof.
  intros Hrow Hf. unfold matrix_cell.
  destruct (decide (r = r0)) as [-> | Hr].
  - rewrite list_lookup_insert_eq by (apply lookup_lt_is_Some; eauto). rewrite Hrow.
    destruct (decide (f = f0)) as [-> | Hf0].
    + rewrite list_lookup_insert_eq by exact Hf.
      destruct (decide _) as [_|Hn]; [reflexivity | congruence].
    + rewrite list_lookup_insert_ne by congruence.
      destruct (decide _) as [Heq|_]; [congruence | reflexivity].
  - rewrite list_lookup_insert_ne by congruence.
    destruct (decide _) as [Heq|_]; [congruence | reflexivity].
Qed.

(** The loop of [board_as_matrix] on items that all address a cell, no two
    the same one: each item's piece ends up in its cell, every other cell is
    left alone. *)
Lemma fill_matrix_spec (items : list (Square * Piece)) :
  forall m0 : list (list (option Piece)),
    is_8x8 m0 ->
    (forall s p, (s, p) ∈ items -> is_Some (cell_of s)) ->
    NoDup (cell_of <$> items.*1) ->
    exists m, fill_matrix items m0 = Got m /\ is_8x8 m
      /\ (forall s p r f, (s, p) ∈ items -> cell_of s = Some (r, f) ->
            matrix_cell m r f = Some (Some p))
      /\ (forall r f, (forall s p, (s, p) ∈ items -> cell_of s <> Some (r, f)) ->
            matrix_cell m r f = matrix_cell m0 r f).
Proof.
  induction items as [|[[fi ri] p] items IH]; intros m0 Hshape Hcell Hnodup.
  - exists m0. split; [reflexivity|]. split; [exact Hshape|]. split.
    + intros s p r f Hin. inversion Hin.
    + reflexivity.
  - simpl in Hnodup. apply NoDup_cons in Hnodup as [Hfresh Hnodup].
    destruct (Hcell (fi, ri) p ltac:(left)) as [[r0 f0] Hc0].
    pose proof Hc0 as Hc0'. unfold cell_of in Hc0'. simpl in Hc0'.
    destruct (py_index 8 ri) as [r0'|] eqn:Hr0; [|discriminate].
    destruct (py_index 8 fi) as [f0'|] eqn:Hf0; [|discriminate].
    injection Hc0' as -> ->.
    destruct Hshape as [Hlen Hrows].
    pose proof (py_index_lt _ _ _ Hr0) as Hr0lt.
    pose proof (py_index_lt _ _ _ Hf0) as Hf0lt.
    destruct (lookup_lt_is_Some_2 m0 r0 ltac:(lia)) as [row Hrow].
    pose proof (Forall_lookup_1 _ _ _ _ Hrows Hrow) as Hrowlen. simpl in Hrowlen.
    simpl. rewrite Hlen, Hr0, Hrow, Hrowlen, Hf0.
    destruct (IH (<[r0 := <[f0 := Some p]> row]> m0)) as (m & Hm & Hshape' & Hset & Hkeep).
    { split; [rewrite length_insert; exact Hlen|].
      apply Forall_insert; [exact Hrows|]. rewrite length_insert. exact Hrowlen. }
    { intros s q Hin. apply (Hcell s q). right. exact Hin. }
    { exact Hnodup. }
    exists m. split; [exact Hm|]. split; [exact Hshape'|]. split.
    + intros s q r f Hin Hc. apply elem_of_cons in Hin as [[= -> ->] | Hin].
      * rewrite Hc0 in Hc. injection Hc as <- <-.
        rewrite Hkeep.
        -- rewrite matrix_cell_insert by (trivial; lia).
           destruct (decide _) as [_|Hn]; [reflexivity | congruence].
        -- intros s q Hin Hc. apply Hfresh. simpl. rewrite Hc0, <- Hc.
           apply (list_elem_of_fmap_2 cell_of). apply (list_elem_of_fmap_2 fst _ (s, q)).
           exact Hin.
      * eapply Hset; eauto.
    + intros r f Hnone. rewrite Hkeep.
      * rewrite matrix_cell_insert by (trivial; lia).
        destruct (decide _) as [[= -> ->]|_]; [|reflexivity].
        exfalso. apply (Hnone (fi, ri) p); [left | exact Hc0].
      * intros s q Hin. apply (Hnone s q). right. exact Hin.
Qed.

Lemma cell_of_on_board (f r : Z) :
  in_bounds (f, r) = true -> cell_of (f, r) = Some (Z.to_nat r, Z.to_nat f).
Proof.
  rewrite in_bounds_iff. intros [Hf Hr]. unfold cell_of, py_index. simpl.
  change (Z.of_nat 8) with 8.
  replace ((0 <=? r) && (r <? 8)) with true by lia.
  replace ((0 <=? f) && (f <? 8)) with true by lia. reflexivity.
Qed.

Lemma blank_matrix_cell (r f : nat) :
  (r < 8)%nat -> (f < 8)%nat ->
  matrix_cell (replicate 8 (replicate 8 None)) r f = Some None.
Proof.
  intros Hr Hf. unfold matrix_cell.
  rewrite lookup_replicate_2 by exact Hr. apply lookup_replicate_2. exact Hf.
Qed.

Lemma blank_matrix_8x8 : is_8x8 (replicate 8 (replicate 8 None)).
Proof. split; [reflexivity|]. apply Forall_replicate. reflexivity. Qed.

(** X18. On a board whose pieces all stand on the 64 squares,
    [board_as_matrix] returns eight rows of eight cells with
    [matrix[rank][file]] the content of square [(file, rank)], in whatever
    order the board yields its placements. *)
Theorem board_as_matrix_on_board (b : Board) (items : list (Square * Piece)) :
  items ≡ₚ map_to_list b ->
  on_board b ->
  exists m, board_as_matrix items = Got m /\ is_8x8 m
    /\ forall r f : nat, (r < 8)%nat -> (f < 8)%nat ->
         matrix_cell m r f = Some (get_piece b (Z.of_nat f, Z.of_nat r)).
Proof.
  intros Hperm Hb.
  assert (Hin : forall s p, (s, p) ∈ items <-> get_piece b s = Some p).
  { intros s p. rewrite Hperm. apply elem_of_map_to_list. }
  destruct (fill_matrix_spec items (replicate 8 (replicate 8 None)))
    as (m & Hm & Hshape & Hset & Hkeep).
  - exact blank_matrix_8x8.
  - intros [f r] p Hsp. apply Hin, Hb in Hsp. rewrite (cell_of_on_board _ _ Hsp). eauto.
  - apply NoDup_fmap_2_strong.
    + intros x y H1 H2.
      apply list_elem_of_fmap in H1 as ([s1 p1] & -> & H1).
      apply list_elem_of_fmap in H2 as ([s2 p2] & -> & H2). simpl.
      apply Hin, Hb in H1. apply Hin, Hb in H2. destruct s1 as [f r], s2 as [f' r'].
      rewrite (cell_of_on_board _ _ H1), (cell_of_on_board _ _ H2).
      apply in_bounds_iff in H1, H2. intros [= Hr Hf]. f_equal; lia.
    + rewrite Hperm. apply NoDup_fst_map_to_list.
  - exists m. split; [exact Hm|]. split; [exact Hshape|].
    intros r f Hr Hf.
    assert (Hc : cell_of (Z.of_nat f, Z.of_nat r) = Some (r, f)).
    { rewrite cell_of_on_board by (apply in_bounds_iff; simpl; lia).
      rewrite !Nat2Z.id. reflexivity. }
    destruct (get_piece b (Z.of_nat f, Z.of_nat r)) as [p|] eqn:Hp.
    + apply (Hset (Z.of_nat f, Z.of_nat r) p); [apply Hin; exact Hp | exact Hc].
    + rewrite Hkeep; [apply blank_matrix_cell; assumption|].
      intros [f' r'] q Hsq Hc'. pose proof Hsq as Hsq'. apply Hin, Hb in Hsq'.
      rewrite (cell_of_on_board _ _ Hsq') in Hc'. apply in_bounds_iff in Hsq'.
      injection Hc' as <- <-. rewrite !Z2Nat.id in Hp by lia.
      apply Hin in Hsq. congruence.
Qed.

Lemma board_as_matrix_on_board_witness :
  exists m,
    board_as_matrix (map_to_list from_initial_position) = Got m
    /\ matrix_cell m 0 4 = Some (Some (mkPiece WHITE KING))
    /\ matrix_cell m 3 4 = Some None.
Proof.
  destruct (board_as_matrix_on_board from_initial_position
              (map_to_list from_initial_position))
    as (m & Hm & _ & Hcells).
  - reflexivity.
  - apply reset_on_board.
  - exists m. split; [exact Hm|]. split.
    + rewrite (Hcells 0%nat 4%nat) by lia. vm_compute. reflexivity.
    + rewrite (Hcells 3%nat 4%nat) by lia. vm_compute. reflexivity.
Defined.

Lemma cell_of_range (s : Square) :
  (-8 <= s.1 <= 7 /\ -8 <= s.2 <= 7 ->
   cell_of s = Some (Z.to_nat (s.2 mod 8), Z.to_nat (s.1 mod 8)))
  /\ (~ (-8 <= s.1 <= 7 /\ -8 <= s.2 <= 7) -> cell_of s = None).
Proof.
  destruct s as [f r]. unfold cell_of, py_index. simpl. change (Z.of_nat 8) with 8.
  change (- (8)) with (-8).
  pose proof (Z.div_mod r 8 ltac:(lia)) as Dr.
  pose proof (Z.mod_pos_bound r 8 ltac:(lia)) as Br.
  pose proof (Z.div_mod f 8 ltac:(lia)) as Df.
  pose proof (Z.mod_pos_bound f 8 ltac:(lia)) as Bf.
  split.
  - intros [Hf Hr].
    destruct ((0 <=? r) && (r <? 8)) eqn:R1;
      [|replace ((-8 <=? r) && (r <? 0)) with true by lia];
      (destruct ((0 <=? f) && (f <? 8)) eqn:F1;
       [|replace ((-8 <=? f) && (f <? 0)) with true by lia]);
      do 2 f_equal; lia.
  - intros Hn.
    destruct ((0 <=? r) && (r <? 8)) eqn:R1;
      [|destruct ((-8 <=? r) && (r <? 0)) eqn:R2; [|reflexivity]];
      (destruct ((0 <=? f) && (f <? 8)) eqn:F1;
       [|destruct ((-8 <=? f) && (f <? 0)) eqn:F2; [|reflexivity]]); lia.
Qed.

Lemma fill_matrix_index_error (items : list (Square * Piece)) :
  forall m0 : list (list (option Piece)),
    is_8x8 m0 ->
    (exists s p, (s, p) ∈ items /\ cell_of s = None) ->
    fill_matrix items m0 = IndexError.
Proof.
  induction items as [|[[fi ri] q] items IH]; intros m0 [Hlen Hrows] (s & p & Hin & Hs).
  - inversion Hin.
  - simpl. rewrite Hlen.
    destruct (py_index 8 ri) as [r0|] eqn:Hr0; [|reflexivity].
    pose proof (py_index_lt _ _ _ Hr0) as Hr0lt.
    destruct (lookup_lt_is_Some_2 m0 r0 ltac:(lia)) as [row Hrow].
    pose proof (Forall_lookup_1 _ _ _ _ Hrows Hrow) as Hrowlen. simpl in Hrowlen.
    rewrite Hrow, Hrowlen.
    destruct (py_index 8 fi) as [f0|] eqn:Hf0; [|reflexivity].
    apply IH.
    + split; [rewrite length_insert; exact Hlen|].
      apply Forall_insert; [exact Hrows|]. rewrite length_insert. exact Hrowlen.
    + apply elem_of_cons in Hin as [[= -> ->] | Hin]; [|eauto].
      unfold cell_of in Hs. simpl in Hs. rewrite Hr0, Hf0 in Hs. discriminate.
Qed.

(** X19. [board_as_matrix] raises IndexError as soon as one piece stands on a
    square with a file or a rank outside [-8, 7], whatever the other
    placements and the order they come in. *)
Theorem board_as_matrix_index_error (items : list (Square * Piece)) (s : Square) (p : Piece) :
  (s, p) ∈ items ->
  ~ (-8 <= s.1 <= 7 /\ -8 <= s.2 <= 7) ->
  board_as_matrix items = IndexError.
Proof.
  intros Hin Hs. apply fill_matrix_index_error; [exact blank_matrix_8x8|].
  exists s, p. split; [exact Hin|]. apply cell_of_range. exact Hs.
Qed.

Lemma board_as_matrix_index_error_witness :
  board_as_matrix [((4, 0), mkPiece WHITE KING); ((0, 8), mkPiece WHITE ROOK)] = IndexError.
Proof.
  apply (board_as_matrix_index_error _ (0, 8) (mkPiece WHITE ROOK)).
  - right. left.
  - simpl. lia.
Defined.

(** X20. Squares with a negative file or rank down to -8 do not raise: as
    Python indices they wrap around. When every piece stands on a square
    with file and rank in [-8, 7] and no two pieces share file and rank
    modulo 8, [board_as_matrix] returns eight rows of eight cells and shows
    each piece in row [rank mod 8], column [file mod 8]: a piece on rank -1
    appears in the top row. *)
Theorem board_as_matrix_wraps (b : Board) (items : list (Square * Piece)) :
  items ≡ₚ map_to_list b ->
  (forall s p, get_piece b s = Some p -> -8 <= s.1 <= 7 /\ -8 <= s.2 <= 7) ->
  (forall s s' p p', get_piece b s = Some p -> get_piece b s' = Some p' ->
     s.1 mod 8 = s'.1 mod 8 -> s.2 mod 8 = s'.2 mod 8 -> s = s') ->
  exists m, board_as_matrix items = Got m /\ is_8x8 m
    /\ forall s p, get_piece b s = Some p ->
         matrix_cell m (Z.to_nat (s.2 mod 8)) (Z.to_nat (s.1 mod 8)) = Some (Some p).
Proof.
  intros Hperm Hrange Hinj.
  assert (Hin : forall s p, (s, p) ∈ items <-> get_piece b s = Some p).
  { intros s p. rewrite Hperm. apply elem_of_map_to_list. }
  destruct (fill_matrix_spec items (replicate 8 (replicate 8 None)))
    as (m & Hm & Hshape & Hset & _).
  - exact blank_matrix_8x8.
  - intros s p Hsp. apply Hin, Hrange in Hsp.
    rewrite (proj1 (cell_of_range s) Hsp). eauto.
  - apply NoDup_fmap_2_strong.
    + intros x y H1 H2.
      apply list_elem_of_fmap in H1 as ([s1 p1] & -> & H1).
      apply list_elem_of_fmap in H2 as ([s2 p2] & -> & H2). simpl.
      apply Hin in H1, H2.
      rewrite (proj1 (cell_of_range s1) (Hrange _ _ H1)).
      rewrite (proj1 (cell_of_range s2) (Hrange _ _ H2)).
      intros [= Hr Hf]. apply (Hinj s1 s2 p1 p2 H1 H2).
      * pose proof (Z.mod_pos_bound s1.1 8 ltac:(lia)).
        pose proof (Z.mod_pos_bound s2.1 8 ltac:(lia)). lia.
      * pose proof (Z.mod_pos_bound s1.2 8 ltac:(lia)).
        pose proof (Z.mod_pos_bound s2.2 8 ltac:(lia)). lia.
    + rewrite Hperm. apply NoDup_fst_map_to_list.
  - exists m. split; [exact Hm|]. split; [exact Hshape|].
    intros s p Hp. apply (Hset s p); [apply Hin; exact Hp|].
    apply cell_of_range. eapply Hrange. exact Hp.
Qed.

Lemma board_as_matrix_wraps_witness :
  exists m,
    board_as_matrix [((0, -1), mkPiece WHITE ROOK)] = Got m
    /\ matrix_cell m 7 0 = Some (Some (mkPiece WHITE ROOK)).
Proof.
  destruct (board_as_matrix_wraps {[ (0, -1) := mkPiece WHITE ROOK ]}
              [((0, -1), mkPiece WHITE ROOK)]) as (m & Hm & _ & Hcell).
  - rewrite map_to_list_singleton. reflexivity.
  - intros s p Hs. unfold get_piece in Hs.
    apply lookup_singleton_Some in Hs as [<- _]. simpl. lia.
  - intros s s' p p' Hs Hs' _ _. unfold get_piece in Hs, Hs'.
    apply lookup_singleton_Some in Hs as [<- _].
    apply lookup_singleton_Some in Hs' as [<- _]. reflexivity.
  - exists m. split; [exact Hm|].
    apply (Hcell (0, -1) (mkPiece WHITE ROOK)). apply lookup_singleton_eq.
Defined.

(** ** Rendering *)

Lemma render_with_ext (c1 c2 : Square -> string) :
  (forall f r, 0 <= f <= 7 -> 0 <= r <= 7 -> c1 (f, r) = c2 (f, r)) ->
  render_with c1 = render_with c2.
Proof.
  intros H. unfold render_with.
  change (range BOARD_SIZE) with [0; 1; 2; 3; 4; 5; 6; 7].
  change (rev [0; 1; 2; 3; 4; 5; 6; 7]) with [7; 6; 5; 4; 3; 2; 1; 0].
  cbn [map]. rewrite !H by lia. reflexivity.
Qed.

(** The layout of the text, over one character per square. *)
Lemma render_with_chars (ch : Square -> ascii) :
  String.length (render_with (fun s => String (ch s) EmptyString)) = 161%nat
  /\ forall f r, 0 <= f <= 7 -> 0 <= r <= 7 ->
       substring (render_offset (f, r)) 1
         (render_with (fun s => String (ch s) EmptyString))
       = String (ch (f, r)) EmptyString.
Proof.
  split; [vm_compute; reflexivity|].
  intros f r Hf Hr.
  assert (Ef : f = 0 \/ f = 1 \/ f = 2 \/ f = 3 \/ f = 4 \/ f = 5 \/ f = 6 \/ f = 7) by lia.
  assert (Er : r = 0 \/ r = 1 \/ r = 2 \/ r = 3 \/ r = 4 \/ r = 5 \/ r = 6 \/ r = 7) by lia.
  destruct Ef as [-> | [-> | [-> | [-> | [-> | [-> | [-> | ->]]]]]]];
    destruct Er as [-> | [-> | [-> | [-> | [-> | [-> | [-> | ->]]]]]]];
    vm_compute; reflexivity.
Qed.

Lemma cell_text_one_char (o : option Piece) :
  cell_text o
  = String (match cell_text o with String c _ => c | EmptyString => "."%char end)
      EmptyString.
Proof. destruct o as [[[] []]|]; reflexivity. Qed.

Lemma cell_text_inj (o1 o2 : option Piece) : cell_text o1 = cell_text o2 -> o1 = o2.
Proof.
  destruct o1 as [[[] []]|], o2 as [[[] []]|]; vm_compute; intros H; congruence.
Qed.

Lemma render_layout (b : Board) :
  String.length (render b) = 161%nat
  /\ forall f r, 0 <= f <= 7 -> 0 <= r <= 7 ->
       substring (render_offset (f, r)) 1 (render b) = cell_text (get_piece b (f, r)).
Proof.
  unfold render.
  rewrite (render_with_ext _
             (fun s => String (match cell_text (get_piece b s) with
                               | String c _ => c
                               | EmptyString => "."%char
                               end) EmptyString))
    by (intros; apply cell_text_one_char).
  destruct (render_with_chars
              (fun s => match cell_text (get_piece b s) with
                        | String c _ => c
                        | EmptyString => "."%char
                        end)) as [Hlen Hsub].
  split; [exact Hlen|]. intros f r Hf Hr.
  rewrite (Hsub f r Hf Hr). symmetry. apply cell_text_one_char.
Qed.

(** X21. The text [render] returns always has 161 characters (nine lines of
    17), and for every square of the board the character at offset
    [18 * (7 - rank) + 2 + 2 * file] is the symbol of the piece on that
    square, or a dot when the square is empty. *)
Theorem render_shows_square (b : Board) (f r : Z) :
  0 <= f <= 7 -> 0 <= r <= 7 ->
  String.length (render b) = 161%nat
  /\ substring (render_offset (f, r)) 1 (render b) = cell_text (get_piece b (f, r)).
Proof.
  intros Hf Hr. destruct (render_layout b) as [Hlen Hsub]. split; [exact Hlen|].
  apply Hsub; assumption.
Qed.

Lemma render_shows_square_witness :
  substring (render_offset (4, 0)) 1 (render from_initial_position) = "K"%string.
Proof.
  destruct (render_shows_square from_initial_position 4 0) as [_ H]; [lia | lia |].
  rewrite H. vm_compute. reflexivity.
Defined.

(** X22. [render] shows the squares of the board and nothing else: two boards
    are rendered alike exactly when they agree on each of the 64 squares;
    pieces off the board do not show. *)
Theorem render_determines_board (b b' : Board) :
  render b = render b'
  <-> forall f r, 0 <= f <= 7 -> 0 <= r <= 7 -> get_piece b (f, r) = get_piece b' (f, r).
Proof.
  split.
  - intros H f r Hf Hr. apply cell_text_inj.
    rewrite <- (proj2 (render_layout b) f r Hf Hr).
    rewrite <- (proj2 (render_layout b') f r Hf Hr). rewrite H. reflexivity.
  - intros H. unfold render. apply render_with_ext.
    intros f r Hf Hr. rewrite (H f r Hf Hr). reflexivity.
Qed.

Lemma render_determines_board_witness :
  render (<[(0, 8) := mkPiece WHITE QUEEN]> from_initial_position)
  = render from_initial_position.
Proof.
  apply render_determines_board. intros f r Hf Hr. unfold get_piece.
  apply lookup_insert_ne. intros [= H1 H2]. lia.
Defined.

Example render_initial_position :
  render from_initial_position
  = join newline
      ["8 r n b q k b n r"; "7 p p p p p p p p"; "6 . . . . . . . .";
       "5 . . . . . . . ."; "4 . . . . . . . ."; "3 . . . . . . . .";
       "2 P P P P P P P P"; "1 R N B Q K B N R"; "  a b c d e f g h"]%string.
Proof. vm_compute. reflexivity. Qed.

(** ** Loading moves from a JSON value *)

Lemma load_entries_ok (l : list json) :
  forall (i : Z) (acc moves : list string),
    load_entries (enumerate_from i l) acc = inr moves
    <-> exists rest, l = JString <$> rest /\ moves = acc ++ rest.
Proof.
  induction l as [|entry l IH]; intros i acc moves; simpl.
  - split.
    + intros [= <-]. exists []. rewrite app_nil_r. split; reflexivity.
    + intros (rest & Hl & ->). destruct rest; [|discriminate].
      rewrite app_nil_r. reflexivity.
  - destruct entry as [| | | |m| |];
      try (split; [discriminate | intros ([|? ?] & Hl & _); discriminate]).
    rewrite IH. split.
    + intros (rest & -> & ->). exists (m :: rest).
      rewrite <- app_assoc. split; reflexivity.
    + intros ([|m' rest] & Hl & ->); [discriminate|].
      injection Hl as <- ->. exists rest. rewrite <- app_assoc. split; reflexivity.
Qed.

(** X23. [load] returns exactly when the value is a list of strings, and then
    returns those strings in their order. *)
Theorem load_accepts_string_lists (data : json) (moves : list string) :
  load data = inr moves <-> data = JList (JString <$> moves).
Proof.
  unfold load. destruct data as [| | | | |l|]; try (split; discriminate).
  rewrite load_entries_ok. split.
  - intros (rest & -> & ->). reflexivity.
  - intros [= ->]. exists moves. split; reflexivity.
Qed.

Lemma load_accepts_string_lists_witness :
  load (JList [JString "e2e4"; JString "e7e5"]) = inr ["e2e4"; "e7e5"]%string.
Proof. apply load_accepts_string_lists. reflexivity. Defined.

Lemma load_entries_err (l : list json) :
  forall (i : Z) (acc : list string) (err : LoadError),
    load_entries (enumerate_from i l) acc = inl err ->
    exists (k : nat) (entry : json),
      err = EntryNotString (i + Z.of_nat k)
      /\ l !! k = Some entry
      /\ (forall m, entry <> JString m)
      /\ forall j : nat, (j < k)%nat -> exists m, l !! j = Some (JString m).
Proof.
  induction l as [|entry l IH]; intros i acc err; simpl; [discriminate|].
  destruct entry as [| | | |m| |];
    try (intros [= <-]; eexists 0%nat, _;
         (split; [f_equal; lia|]); (split; [reflexivity|]);
         (split; [discriminate | intros j Hj; lia])).
  intros H. apply IH in H as (k & entry & -> & Hk & Hne & Hbefore).
  exists (S k), entry. split; [f_equal; lia|]. split; [exact Hk|].
  split; [exact Hne|]. intros [|j] Hj; [eauto|]. apply Hbefore. lia.
Qed.

(** X24. When [load] raises on a list, the index in the message is that of
    the first entry that is not a string: the entry at that index is not a
    string and all entries before it are. A value that is not a list is
    refused as such. *)
Theorem load_reports_first_bad_entry :
  (forall (l : list json) (err : LoadError),
     load (JList l) = inl err ->
     exists (k : nat) (entry : json),
       err = EntryNotString (Z.of_nat k)
       /\ l !! k = Some entry
       /\ (forall m, entry <> JString m)
       /\ forall j : nat, (j < k)%nat -> exists m, l !! j = Some (JString m))
  /\ (forall data : json, (forall l, data <> JList l) -> load data = inl NotAList).
Proof.
  split.
  - intros l err H. apply load_entries_err in H. exact H.
  - intros data Hd. destruct data as [| | | | |l|]; try reflexivity.
    exfalso. apply (Hd l). reflexivity.
Qed.

Lemma load_reports_first_bad_entry_witness :
  load (JList [JString "e2e4"; JInt 7; JNull]) = inl (EntryNotString 1)
  /\ load (JString "e2e4") = inl NotAList.
Proof.
  destruct load_reports_first_bad_entry as [H1 H2]. split.
  - destruct (load (JList [JString "e2e4"; JInt 7; JNull])) as [err|moves] eqn:E;
      [|discriminate E].
    destruct (H1 _ _ E) as (k & entry & -> & Hk & Hne & Hbefore).
    destruct k as [|[|k]].
    + simpl in Hk. injection Hk as <-. exfalso. apply (Hne "e2e4"%string). reflexivity.
    + reflexivity.
    + destruct (Hbefore 1%nat ltac:(lia)) as [m Hm]. discriminate Hm.
  - apply H2. intros l. discriminate.
Defined.

(** ** Pawns and the edge ranks *)

Lemma move_piece_ok_landed (fuel : nat) (b : Board) (start end_ : Square)
    (promotion : option PieceType) (b' : Board) (piece : Piece) :
  move_piece fuel b start end_ promotion = Some (b', Ok tt) ->
  get_piece b start = Some piece ->
  kind (landed piece end_ promotion) = PAWN ->
  end_.2 <> 0 /\ end_.2 <> 7.
Proof.
  unfold move_piece, landed. intros H Hp. rewrite Hp in H. revert H.
  destruct (is_legal_move fuel b piece start end_) as [[|]|];
    [| intros [= _ H]; exfalso; exact (raise_naming_not_ok _ _ _ H) | discriminate].
  destruct (holds_color _ _); [discriminate|].
  unfold BOARD_SIZE. change (8 - 1) with 7.
  destruct (kind piece) eqn:Hk;
    try (simpl; intros _ Hc; rewrite Hk in Hc; discriminate Hc).
  rewrite (bool_decide_eq_true_2 (PAWN = PAWN)) by reflexivity. simpl.
  destruct ((end_.2 =? 0) || (end_.2 =? 7)) eqn:Hedge; [|intros _ _; lia].
  destruct (bool_decide (default QUEEN promotion = PAWN)) eqn:Hpawn; [discriminate|].
  simpl. intros _ Hland. apply bool_decide_eq_false in Hpawn. contradiction.
Qed.

(** A call of [move_piece] that returns never leaves a pawn on the first or
    the last rank, if there was none. *)
Lemma move_piece_no_edge_pawn (fuel : nat) (b : Board) (start end_ : Square)
    (promotion : option PieceType) (b' : Board) :
  no_edge_pawn b ->
  move_piece fuel b start end_ promotion = Some (b', Ok tt) ->
  no_edge_pawn b'.
Proof.
  intros Hb H. pose proof H as H'.
  apply move_piece_ok_inv in H' as (piece & Hp & _ & ->).
  intros s p. unfold get_piece. rewrite lookup_insert.
  destruct (decide (end_ = s)) as [<- | Hne].
  - intros [= <-]. apply (move_piece_ok_landed _ _ _ _ _ _ _ H Hp).
  - rewrite lookup_delete. destruct (decide (start = s)); [discriminate|]. apply Hb.
Qed.

(** X25. In every game that [load_moves] leaves when it starts from a fresh
    game, whether it returned or raised, no pawn stands on the first or the
    last rank: a pawn that gets there has been replaced. *)
Theorem loaded_game_no_edge_pawn (fuel : nat) (moves : list string)
    (g : ChessGame) (r : res unit) :
  load_moves fuel new_game moves = Some (g, r) ->
  no_edge_pawn (board g).
Proof.
  apply (load_moves_game_keeps (fun g => no_edge_pawn (board g))).
  - intros g0 n g' Hg0 Hn.
    apply apply_sanless_ok_inv in Hn as (m & _ & _ & Hm).
    apply apply_move_ok_board in Hm as (s & e & Hmv).
    eapply move_piece_no_edge_pawn; eauto.
  - intros [f rk] p. simpl. unfold from_initial_position, get_piece.
    rewrite reset_lookup. unfold start_piece.
    destruct ((0 <=? f) && (f <? 8)); [|discriminate].
    repeat match goal with
           | |- context [?x =? ?y] => destruct (Z.eqb_spec x y)
           end; try discriminate; try (intros _ _; simpl; lia);
      (destruct (back_rank !! Z.to_nat f) as [k|] eqn:Hk; [|discriminate]);
      intros [= <-] Hp; simpl in Hp; subst k; exfalso;
      apply list_elem_of_lookup_2 in Hk; vm_compute in Hk;
      repeat (apply elem_of_cons in Hk as [Hk | Hk]; [discriminate|]); inversion Hk.
Qed.

Lemma loaded_game_no_edge_pawn_witness :
  exists g,
    load_moves 0 new_game ["a2a4"; "b7b5"; "a4b5"]%string = Some (g, Ok tt)
    /\ no_edge_pawn (board g).
Proof.
  destruct (returns_some (load_moves 0 new_game ["a2a4"; "b7b5"; "a4b5"]%string) (Ok tt))
    as [g E]; [vm_compute; reflexivity|].
  exists g. split; [exact E|]. exact (loaded_game_no_edge_pawn _ _ _ _ E).
Defined.
